(** * Proof-of-work difficulty rules of pow.cpp

    A shallow embedding of [src/pow.cpp]: the two retarget algorithms
    ([GetNextWorkRequired] with its weighted moving average, and the legacy
    [BitcoinGetNextWorkRequired] / [CalculateNextWorkRequired]), the
    transition validator [PermittedDifficultyTransition] and the verifier
    [CheckProofOfWork].

    Conventions.
    - [arith_uint256] values are integers in [0, 2^256); every operation
      that can leave that range writes its reduction modulo [2^256] out.
    - [uint32_t] values (compact bits) are integers in [0, 2^32).
    - [int64_t] quantities (heights, timestamps, parameters) are integers;
      C++ division and remainder truncate toward zero ([Z.quot], [Z.rem]).
      Conversions to [uint32_t] and [uint64_t] at the call sites of the
      256-bit operators are written out as reductions modulo [2^32] and
      [2^64].
    - A computation that dereferences a null pointer, divides by zero or
      fails an [assert] yields [None]. *)

From Stdlib Require Import ZArith List Bool Lia.
From Stdlib.Strings Require Import Byte.
Import ListNotations.
Local Open Scope Z_scope.

Notation "x <- c ;; k" := (match c with Some x => k | None => None end)
  (at level 61, c at next level, right associativity).

(** ** 256-bit unsigned integers and the compact encoding *)

Module arith_uint256.

Definition modulus : Z := 2 ^ 256.

(** Modelled from the spec: the fixed-width unsigned integer of
    arith_uint256.h, which is not among the sources.  A value is an
    integer below [2^256]; [wrap] is the reduction every operator
    applies to its result. *)
Definition wrap (z : Z) : Z := z mod modulus.

(** Modelled from the spec: the conversions the C++ overloads of the
    256-bit operators apply to an [int64_t] argument; the multiplication
    operator takes a [uint32_t], the constructor used by division a
    [uint64_t] (arith_uint256.h is not among the sources). *)
Definition to_uint32 (z : Z) : Z := z mod 2 ^ 32.
Definition to_uint64 (z : Z) : Z := z mod 2 ^ 64.

(** Modelled from the spec: multiplication of a 256-bit value by a small
    scalar, [operator*=(uint32_t)] of arith_uint256.cpp (not among the
    sources); the scalar is an [int64_t] at every call site. *)
Definition mul (a : Z) (b : Z) : Z := wrap (a * to_uint32 b).

(** Modelled from the spec: truncating division, [operator/=] of
    arith_uint256.cpp (not among the sources); the divisor is an
    [int64_t] at every call site and a zero divisor is an error. *)
Definition div (a : Z) (b : Z) : option Z :=
  if to_uint64 b =? 0 then None else Some (a / to_uint64 b).

(** Modelled from the spec: addition, [operator+=] of arith_uint256.h
    (not among the sources). *)
Definition add (a b : Z) : Z := wrap (a + b).

(** Modelled from the spec: [bits()] of arith_uint256.cpp (not among the
    sources), the position of the highest set bit plus one, zero for
    zero. *)
Definition bits (a : Z) : Z := if a =? 0 then 0 else Z.log2 a + 1.

(** Modelled from the spec: the decoder of section 4.1, [SetCompact] of
    arith_uint256.cpp (not among the sources).  The exponent is the top
    byte, the mantissa the low 23 bits, bit 23 the sign; the result
    carries the negative and the overflow flag. *)
Definition SetCompact (nCompact : Z) : Z * bool * bool :=
  let nSize := Z.shiftr nCompact 24 in
  let nWord0 := Z.land nCompact 0x007fffff in
  let nWord := if nSize <=? 3 then Z.shiftr nWord0 (8 * (3 - nSize))
               else nWord0 in
  let value := if nSize <=? 3 then nWord
               else wrap (Z.shiftl nWord (8 * (nSize - 3))) in
  let fNegative :=
    negb (nWord =? 0) && negb (Z.land nCompact 0x00800000 =? 0) in
  let fOverflow :=
    negb (nWord =? 0) &&
    ((nSize >? 34) || ((nWord >? 0xff) && (nSize >? 33))
     || ((nWord >? 0xffff) && (nSize >? 32))) in
  (value, fNegative, fOverflow).

(** The call sites that pass no flag pointers keep the value only. *)
Definition decode (nCompact : Z) : Z := fst (fst (SetCompact nCompact)).

(** Modelled from the spec: the encoder of section 4.1, [GetCompact] of
    arith_uint256.cpp (not among the sources), with its default
    [fNegative = false]: the top three bytes become the mantissa, and a
    mantissa with bit 23 set is shifted down one more byte. *)
Definition GetCompact (a : Z) : Z :=
  let nSize := (bits a + 7) / 8 in
  let nCompact := if nSize <=? 3
                  then to_uint32 (Z.shiftl (to_uint64 a) (8 * (3 - nSize)))
                  else to_uint32 (to_uint64 (Z.shiftr a (8 * (nSize - 3)))) in
  let '(nCompact, nSize) :=
    if negb (Z.land nCompact 0x00800000 =? 0)
    then (Z.shiftr nCompact 8, nSize + 1) else (nCompact, nSize) in
  Z.lor nCompact (Z.shiftl nSize 24).

End arith_uint256.
Import arith_uint256.

(** ** Opaque 256-bit blobs *)

(** Modelled from the spec: [uint256] of uint256.h (not among the sources),
    32 bytes of which [data()[i]] is the i-th. *)
Definition uint256 : Type := list byte.

Definition data (h : uint256) (i : nat) : Z :=
  Z.of_N (Byte.to_N (nth i h x00)).

(** Modelled from the spec: [UintToArith256] of arith_uint256.cpp (not
    among the sources) reads the 32 bytes as a little-endian number. *)
Fixpoint le_value (h : uint256) (i n : nat) : Z :=
  match n with
  | O => 0
  | S n' => data h i + 256 * le_value h (S i) n'
  end.

Definition UintToArith256 (h : uint256) : Z := le_value h 0 32.

(** The inverse direction, used to write concrete parameters down. *)
Fixpoint le_bytes (n : nat) (z : Z) : list byte :=
  match n with
  | O => []
  | S n' =>
      match Byte.of_N (Z.to_N (z mod 256)) with
      | Some b => b :: le_bytes n' (z / 256)
      | None => x00 :: le_bytes n' (z / 256)
      end
  end.

Definition ArithToUint256 (z : Z) : uint256 := le_bytes 32 z.

(** ** Consensus parameters *)

Module Consensus.

(** Modelled from the spec: the fields of [Consensus::Params]
    (consensus/params.h, not among the sources) that pow.cpp reads. *)
Record Params : Type := {
  powLimit : uint256;
  nPowTargetSpacing : Z;
  nPowTargetTimespan : Z;
  nLWMAAveragingWindow : Z;
  switchLWMAblock : Z;
  fPowAllowMinDifficultyBlocks : bool;
  fPowNoRetargeting : bool;
  enforce_BIP94 : bool
}.

(** Modelled from the spec: the adjustment interval is the target
    timespan over the target spacing (section 6); a zero spacing has no
    quotient. *)
Definition DifficultyAdjustmentInterval (p : Params) : option Z :=
  if nPowTargetSpacing p =? 0 then None
  else Some (Z.quot (nPowTargetTimespan p) (nPowTargetSpacing p)).

End Consensus.
Import Consensus.

(** C++ [a % b] on signed integers. *)
Definition cpp_rem (a b : Z) : option Z :=
  if b =? 0 then None else Some (Z.rem a b).

(** ** The header chain *)

(** Modelled from the spec: the header-chain view of section 3, the
    fields and accessors of [CBlockIndex] (chain.h, not among the sources)
    that pow.cpp uses.  [pprev] is the parent, absent at the chain
    start. *)
#[local] Unset Elimination Schemes.
Inductive CBlockIndex : Type :=
  mkBlockIndex {
    nHeight : Z;
    nTime : Z;
    nBits : Z;
    pprev : option CBlockIndex
  }.
#[local] Set Elimination Schemes.

Definition GetBlockTime (p : CBlockIndex) : Z := nTime p.

(** Modelled from the spec: [ancestorAtHeight] of section 6,
    [CBlockIndex::GetAncestor] of chain.cpp (not among the sources): null
    for a height above the block's own or below zero, otherwise the
    ancestor found by walking the parents. *)
Fixpoint walk_to (p : CBlockIndex) (height : Z) : option CBlockIndex :=
  if nHeight p =? height then Some p
  else match pprev p with
       | Some q => walk_to q height
       | None => None
       end.

Definition GetAncestor (p : CBlockIndex) (height : Z) : option CBlockIndex :=
  if (height >? nHeight p) || (height <? 0) then None else walk_to p height.

(** Modelled from the spec: the candidate header ([CBlockHeader] of
    primitives/block.h, not among the sources), of which only the
    timestamp is read. *)
Record CBlockHeader : Type := { hdr_nTime : Z }.

Definition HeaderGetBlockTime (b : CBlockHeader) : Z := hdr_nTime b.

(** ** pow.cpp *)

(** *** The weighted moving-average loop *)

(** The variables the [for] loop of [GetNextWorkRequired] updates. *)
Record LoopState : Type := {
  ls_i : Z;
  ls_weight : Z;
  ls_previousTimestamp : Z;
  ls_sumTarget : Z
}.

(** [thisTimestamp] of the loop body. *)
Definition thisTimestamp (blockTime previousTimestamp : Z) : Z :=
  if blockTime >? previousTimestamp then blockTime else previousTimestamp + 1.

(** The two-sided limit the loop body puts on [solveTime]. *)
Definition clampSolveTime (T solveTime : Z) : Z :=
  let minSolveTime := Z.quot T 6 in
  let maxSolveTime := 6 * T in
  if solveTime <? minSolveTime then minSolveTime
  else if solveTime >? maxSolveTime then maxSolveTime
  else solveTime.

(** One pass through the loop body, with the increments of the header. *)
Definition lwma_body (pIndexLast : CBlockIndex) (T : Z) (st : LoopState)
  : option LoopState :=
  block <- GetAncestor pIndexLast (ls_i st) ;;
  let this := thisTimestamp (GetBlockTime block) (ls_previousTimestamp st) in
  let solveTime := this - ls_previousTimestamp st in
  let solveTime := clampSolveTime T solveTime in
  let target := decode (nBits block) in
  Some {| ls_i := ls_i st + 1;
          ls_weight := ls_weight st + 1;
          ls_previousTimestamp := this;
          ls_sumTarget :=
            add (ls_sumTarget st) (mul (mul target solveTime) (ls_weight st)) |}.

(** [for (i = height - N + 1; i <= height; i++, weight++)]: the loop runs
    while its condition holds; [fuel] bounds the number of passes. *)
Fixpoint lwma_loop (fuel : nat) (pIndexLast : CBlockIndex) (T height : Z)
  (st : LoopState) : option LoopState :=
  if ls_i st <=? height then
    match fuel with
    | O => None
    | S fuel' =>
        st' <- lwma_body pIndexLast T st ;;
        lwma_loop fuel' pIndexLast T height st'
    end
  else Some st.

(** The loop variables on entry. *)
Definition lwma_start (height N previousTimestamp : Z) : LoopState :=
  {| ls_i := height - N + 1; ls_weight := 1;
     ls_previousTimestamp := previousTimestamp; ls_sumTarget := 0 |}.

(** [sumTarget] once the loop is over: the initial timestamp is read from
    the oldest block of the window, then the loop runs. *)
Definition lwmaSumTarget (pIndexLast : CBlockIndex) (params : Params)
  : option Z :=
  let height := nHeight pIndexLast in
  let T := nPowTargetSpacing params in
  let N := nLWMAAveragingWindow params in
  blockPreviousTimestamp <- GetAncestor pIndexLast (height - N + 1) ;;
  let previousTimestamp := GetBlockTime blockPreviousTimestamp in
  st <- lwma_loop (Z.to_nat N) pIndexLast T height
          (lwma_start height N previousTimestamp) ;;
  Some (ls_sumTarget st).

(** The three-way limit applied to [nextTarget] after the loop. *)
Definition limitNextTarget (nextTarget powLimit easingTarget tighteningTarget : Z)
  : Z :=
  if nextTarget >? powLimit then powLimit
  else if nextTarget >? easingTarget then easingTarget
  else if nextTarget <? tighteningTarget then tighteningTarget
  else nextTarget.

(** *** The legacy retarget *)

(** The value [bnNew] starts from: under [enforce_BIP94] the target of the
    first block of the period, otherwise the target of the last block. *)
Definition retargetBase (pindexLast : CBlockIndex) (params : Params)
  : option Z :=
  if enforce_BIP94 params then
    interval <- DifficultyAdjustmentInterval params ;;
    let nHeightFirst := nHeight pindexLast - (interval - 1) in
    pindexFirst <- GetAncestor pindexLast nHeightFirst ;;
    Some (decode (nBits pindexFirst))
  else Some (decode (nBits pindexLast)).

Definition CalculateNextWorkRequired (pindexLast : CBlockIndex)
  (nFirstBlockTime : Z) (params : Params) : option Z :=
  if fPowNoRetargeting params then Some (nBits pindexLast)
  else
    let nActualTimespan := GetBlockTime pindexLast - nFirstBlockTime in
    let nActualTimespan :=
      if nActualTimespan <? Z.quot (nPowTargetTimespan params) 4
      then Z.quot (nPowTargetTimespan params) 4 else nActualTimespan in
    let nActualTimespan :=
      if nActualTimespan >? nPowTargetTimespan params * 4
      then nPowTargetTimespan params * 4 else nActualTimespan in
    let bnPowLimit := UintToArith256 (powLimit params) in
    bnNew <- retargetBase pindexLast params ;;
    let bnNew := mul bnNew nActualTimespan in
    bnNew <- div bnNew (nPowTargetTimespan params) ;;
    let bnNew := if bnNew >? bnPowLimit then bnPowLimit else bnNew in
    Some (GetCompact bnNew).

(** The [while] loop of [BitcoinGetNextWorkRequired]: step to the parent
    while there is one, the height is off the interval boundary and the
    bits are the power-limit bits. *)
Fixpoint skip_min_difficulty (interval nProofOfWorkLimit : Z)
  (pindex : CBlockIndex) : CBlockIndex :=
  match pprev pindex with
  | Some q =>
      if negb (Z.rem (nHeight pindex) interval =? 0)
         && (nBits pindex =? nProofOfWorkLimit)
      then skip_min_difficulty interval nProofOfWorkLimit q
      else pindex
  | None => pindex
  end.

Definition BitcoinGetNextWorkRequired (pindexLast : CBlockIndex)
  (pblock : CBlockHeader) (params : Params) : option Z :=
  let nProofOfWorkLimit := GetCompact (UintToArith256 (powLimit params)) in
  interval <- DifficultyAdjustmentInterval params ;;
  r <- cpp_rem (nHeight pindexLast + 1) interval ;;
  if negb (r =? 0) then
    if fPowAllowMinDifficultyBlocks params then
      if HeaderGetBlockTime pblock
         >? GetBlockTime pindexLast + nPowTargetSpacing params * 2
      then Some nProofOfWorkLimit
      else Some (nBits (skip_min_difficulty interval nProofOfWorkLimit
                          pindexLast))
    else Some (nBits pindexLast)
  else
    let nHeightFirst := nHeight pindexLast - (interval - 1) in
    if nHeightFirst <? 0 then None
    else
      pindexFirst <- GetAncestor pindexLast nHeightFirst ;;
      CalculateNextWorkRequired pindexLast (GetBlockTime pindexFirst) params.

(** *** The entry point *)

Definition GetNextWorkRequired (pIndexLast : CBlockIndex)
  (pBlock : CBlockHeader) (params : Params) : option Z :=
  let powLimit := UintToArith256 (powLimit params) in
  let height := nHeight pIndexLast in
  let T := nPowTargetSpacing params in
  let N := nLWMAAveragingWindow params in
  if height + 1 <? N then Some (GetCompact powLimit)
  else if height <? switchLWMAblock params
  then BitcoinGetNextWorkRequired pIndexLast pBlock params
  else
    let prevTarget := decode (nBits pIndexLast) in
    easingTarget <- div (mul prevTarget 6) 5 ;;
    tighteningTarget <- div (mul prevTarget 2) 3 ;;
    let k := Z.quot (N * (N + 1) * T) 2 in
    sumTarget <- lwmaSumTarget pIndexLast params ;;
    nextTarget <- div sumTarget k ;;
    Some (GetCompact
            (limitNextTarget nextTarget powLimit easingTarget tighteningTarget)).

(** *** The transition validator *)

Definition PermittedDifficultyTransition (params : Params)
  (height old_nbits new_nbits : Z) : option bool :=
  if fPowAllowMinDifficultyBlocks params then Some true
  else
    interval <- DifficultyAdjustmentInterval params ;;
    r <- cpp_rem height interval ;;
    if r =? 0 then
      let smallest_timespan := Z.quot (nPowTargetTimespan params) 4 in
      let largest_timespan := nPowTargetTimespan params * 4 in
      let pow_limit := UintToArith256 (powLimit params) in
      let observed_new_target := decode new_nbits in
      let largest_difficulty_target := mul (decode old_nbits) largest_timespan in
      largest_difficulty_target <-
        div largest_difficulty_target (nPowTargetTimespan params) ;;
      let largest_difficulty_target :=
        if largest_difficulty_target >? pow_limit then pow_limit
        else largest_difficulty_target in
      let maximum_new_target := decode (GetCompact largest_difficulty_target) in
      if maximum_new_target <? observed_new_target then Some false
      else
        let smallest_difficulty_target :=
          mul (decode old_nbits) smallest_timespan in
        smallest_difficulty_target <-
          div smallest_difficulty_target (nPowTargetTimespan params) ;;
        let smallest_difficulty_target :=
          if smallest_difficulty_target >? pow_limit then pow_limit
          else smallest_difficulty_target in
        let minimum_new_target :=
          decode (GetCompact smallest_difficulty_target) in
        if minimum_new_target >? observed_new_target then Some false
        else Some true
    else if negb (old_nbits =? new_nbits) then Some false
    else Some true.

(** *** The verifier *)

Definition DeriveTarget (nBits : Z) (pow_limit : uint256) : option Z :=
  let '(bnTarget, fNegative, fOverflow) := SetCompact nBits in
  if fNegative || (bnTarget =? 0) || fOverflow
     || (bnTarget >? UintToArith256 pow_limit)
  then None
  else Some bnTarget.

Definition CheckProofOfWorkImpl (hash : uint256) (nBits : Z) (params : Params)
  : bool :=
  match DeriveTarget nBits (powLimit params) with
  | None => false
  | Some bnTarget =>
      if UintToArith256 hash >? bnTarget then false else true
  end.

(** [G_FUZZING] is a compile-time constant defined outside pow.cpp; it is
    taken as an argument. *)
Definition CheckProofOfWork (G_FUZZING : bool) (hash : uint256) (nBits : Z)
  (params : Params) : bool :=
  if G_FUZZING then Z.land (data hash 31) 0x80 =? 0
  else CheckProofOfWorkImpl hash nBits params.

(** * Well-formed inputs *)

(** Structural induction on a block index: the chain start, and a block
    with a parent. *)
Definition CBlockIndex_parent_ind (P : CBlockIndex -> Prop)
  (Hstart : forall h t b, P (mkBlockIndex h t b None))
  (Hnext : forall h t b q, P q -> P (mkBlockIndex h t b (Some q)))
  : forall p, P p :=
  fix F (p : CBlockIndex) : P p :=
    match p with
    | mkBlockIndex h t b None => Hstart h t b
    | mkBlockIndex h t b (Some q) => Hnext h t b q (F q)
    end.

(** A chain as the block index stores it: the chain start has height zero
    and every other block stands one above its parent. *)
Fixpoint wf_chain (p : CBlockIndex) : Prop :=
  match pprev p with
  | None => nHeight p = 0
  | Some q => nHeight q = nHeight p - 1 /\ wf_chain q
  end.

(** The chain holding the given (timestamp, bits) pairs, newest first. *)
Fixpoint chain_of (blocks : list (Z * Z)) : option CBlockIndex :=
  match blocks with
  | [] => None
  | (t, b) :: rest =>
      Some (mkBlockIndex (Z.of_nat (length rest)) t b (chain_of rest))
  end.

(** The tip of [chain_of blocks], for a list known to be non-empty. *)
Definition tip_of (first : Z * Z) (rest : list (Z * Z)) : CBlockIndex :=
  mkBlockIndex (Z.of_nat (length rest)) (fst first) (snd first) (chain_of rest).

(** The flags of the decoder. *)
Definition isNegative (nCompact : Z) : bool := snd (fst (SetCompact nCompact)).
Definition isOverflow (nCompact : Z) : bool := snd (SetCompact nCompact).


(** ** Sample inputs *)

(** A parameter set of the legacy kind: two-week timespan, ten-minute
    spacing, the moving average far in the future. *)
Definition legacy_params : Params :=
  {| powLimit := ArithToUint256 (2 ^ 224 - 1);
     nPowTargetSpacing := 600;
     nPowTargetTimespan := 1209600;
     nLWMAAveragingWindow := 9;
     switchLWMAblock := 1000000;
     fPowAllowMinDifficultyBlocks := false;
     fPowNoRetargeting := false;
     enforce_BIP94 := false |}.

(** The same with the no-retargeting and the min-difficulty flag set. *)
Definition flagged_params : Params :=
  {| powLimit := ArithToUint256 (2 ^ 224 - 1);
     nPowTargetSpacing := 600;
     nPowTargetTimespan := 1209600;
     nLWMAAveragingWindow := 9;
     switchLWMAblock := 1000000;
     fPowAllowMinDifficultyBlocks := true;
     fPowNoRetargeting := true;
     enforce_BIP94 := false |}.



(** ** The backward walk, step by step *)

(** The number of times the [while] loop of [BitcoinGetNextWorkRequired]
    steps to a parent. *)
Fixpoint skip_steps (interval nProofOfWorkLimit : Z) (pindex : CBlockIndex)
  : nat :=
  match pprev pindex with
  | Some q =>
      if negb (Z.rem (nHeight pindex) interval =? 0)
         && (nBits pindex =? nProofOfWorkLimit)
      then S (skip_steps interval nProofOfWorkLimit q)
      else O
  | None => O
  end.

(** The block [n] parents up from [p] (the chain start once reached). *)
Fixpoint nth_parent (n : nat) (p : CBlockIndex) : CBlockIndex :=
  match n with
  | O => p
  | S n' => match pprev p with
            | Some q => nth_parent n' q
            | None => p
            end
  end.

(** The condition of the [while] loop. *)
Definition skip_condition (interval nProofOfWorkLimit : Z) (pindex : CBlockIndex)
  : bool :=
  match pprev pindex with
  | Some _ =>
      negb (Z.rem (nHeight pindex) interval =? 0)
      && (nBits pindex =? nProofOfWorkLimit)
  | None => false
  end.

(** A testnet-like parameter set with a four-block interval, and a chain
    whose last two blocks carry the power-limit bits. *)
Definition testnet_params : Params :=
  {| powLimit := ArithToUint256 (2 ^ 224 - 1);
     nPowTargetSpacing := 600;
     nPowTargetTimespan := 2400;
     nLWMAAveragingWindow := 3;
     switchLWMAblock := 1000000;
     fPowAllowMinDifficultyBlocks := true;
     fPowNoRetargeting := false;
     enforce_BIP94 := false |}.

Definition testnet_tip : CBlockIndex :=
  tip_of (6000, 0x1d00ffff)
    [(4800, 0x1d00ffff); (2400, 0x1c00ffff); (1800, 0x1c00ffff);
     (1200, 0x1c00ffff); (600, 0x1c00ffff); (0, 0x1c00ffff)].

(** ** The moving-average loop, pass by pass *)

(** The loop variables after [n] passes through the body. *)
Fixpoint lwma_iter (n : nat) (pIndexLast : CBlockIndex) (T : Z)
  (st : LoopState) : option LoopState :=
  match n with
  | O => Some st
  | S n' =>
      st' <- lwma_body pIndexLast T st ;;
      lwma_iter n' pIndexLast T st'
  end.


(** Moving-average parameters with a three-block window, and a chain in
    which the block at height 3 repeats the timestamp of its parent. *)
Definition lwma_params : Params :=
  {| powLimit := ArithToUint256 (2 ^ 224 - 1);
     nPowTargetSpacing := 90;
     nPowTargetTimespan := 1209600;
     nLWMAAveragingWindow := 3;
     switchLWMAblock := 0;
     fPowAllowMinDifficultyBlocks := false;
     fPowNoRetargeting := false;
     enforce_BIP94 := false |}.


(** A chain of slow blocks, 540 seconds apart, at four fifths of the
    power limit. *)
Definition slow_tip : CBlockIndex :=
  tip_of (1620, 0x1d00cccc)
    [(1080, 0x1d00cccc); (540, 0x1d00cccc); (0, 0x1d00cccc)].

(** ** The bounds of the transition validator *)

(** A bound of the validator: the old target scaled by
    [timespan / targetTimespan] in 256-bit arithmetic, limited to the
    power limit, then encoded and decoded again. *)
Definition scaledBound (pow_limit oldTarget timespan targetTimespan : Z) : Z :=
  let scaled := mul oldTarget timespan / to_uint64 targetTimespan in
  decode (GetCompact (Z.min scaled pow_limit)).

Definition maximum_new_target (params : Params) (old_nbits : Z) : Z :=
  scaledBound (UintToArith256 (powLimit params)) (decode old_nbits)
    (nPowTargetTimespan params * 4) (nPowTargetTimespan params).

Definition minimum_new_target (params : Params) (old_nbits : Z) : Z :=
  scaledBound (UintToArith256 (powLimit params)) (decode old_nbits)
    (Z.quot (nPowTargetTimespan params) 4) (nPowTargetTimespan params).

(** ** Chains on schedule *)

(** Every block of the chain follows its parent by [spacing] seconds. *)
Fixpoint spaced_by (spacing : Z) (p : CBlockIndex) : Prop :=
  match pprev p with
  | None => True
  | Some q => GetBlockTime p - GetBlockTime q = spacing /\ spaced_by spacing q
  end.




(** ** Chains within the power limit *)

(** Bits that decode, with neither the negative nor the overflow flag, to
    a target of at most [limit]. *)
Definition bits_in_range (limit nCompact : Z) : Prop :=
  isNegative nCompact = false /\ isOverflow nCompact = false
  /\ decode nCompact <= limit.

(** Every block of the chain carries bits in range. *)
Fixpoint chain_in_range (limit : Z) (p : CBlockIndex) : Prop :=
  bits_in_range limit (nBits p)
  /\ match pprev p with
     | None => True
     | Some q => chain_in_range limit q
     end.

(** ** A window exactly on schedule *)

(** Every block of the chain carries the same bits. *)
Fixpoint all_bits (bits : Z) (p : CBlockIndex) : Prop :=
  nBits p = bits
  /\ match pprev p with
     | None => True
     | Some q => all_bits bits q
     end.

(** The running timestamp after [j] passes over blocks [T] seconds apart,
    the first of them at [t0]. *)
Definition steadyPrevious (t0 T j : Z) : Z :=
  if j =? 0 then t0 else if j =? 1 then t0 + 1 else t0 + (j - 1) * T.

(** The sum of solve time times weight after [j] such passes. *)
Definition steadyWeighted (T j : Z) : Z :=
  if j =? 0 then 0
  else if j =? 1 then clampSolveTime T 1
  else clampSolveTime T 1 + 2 * (T - 1) + T * (j * (j + 1) / 2 - 3).

(** Six blocks, 90 seconds apart, at the same bits. *)
Definition punctual_tip : CBlockIndex :=
  tip_of (450, 0x1c00ffff)
    [(360, 0x1c00ffff); (270, 0x1c00ffff); (180, 0x1c00ffff);
     (90, 0x1c00ffff); (0, 0x1c00ffff)].

(** * Properties *)

Lemma wf_chain_height_nonneg (p : CBlockIndex) : wf_chain p -> 0 <= nHeight p.
Proof.
  induction p as [h t b|h t b q IH] using CBlockIndex_parent_ind; simpl.
  - lia.
  - intros [Hq Hwf]. specialize (IH Hwf). lia.
Qed.

Lemma wf_chain_of (blocks : list (Z * Z)) (p : CBlockIndex) :
  chain_of blocks = Some p -> wf_chain p.
Proof.
  revert p. induction blocks as [|[t b] rest IH]; simpl; intros p E.
  - discriminate.
  - injection E as <-. simpl.
    destruct rest as [|[t' b'] rest'] eqn:Er.
    + reflexivity.
    + simpl chain_of. cbv beta iota. split.
      * cbn [nHeight]. cbn [length]. lia.
      * apply IH. reflexivity.
Qed.

Lemma wf_tip_of (first : Z * Z) (rest : list (Z * Z)) :
  wf_chain (tip_of first rest).
Proof.
  apply (wf_chain_of (first :: rest)). destruct first. reflexivity.
Qed.

Lemma walk_to_wf (p : CBlockIndex) (h : Z) :
  wf_chain p -> 0 <= h <= nHeight p ->
  exists q, walk_to p h = Some q /\ nHeight q = h /\ wf_chain q.
Proof.
  induction p as [hp t b|hp t b q IH] using CBlockIndex_parent_ind;
    simpl; intros Hwf Hh.
  - subst hp. assert (h = 0) by lia. subst h. simpl.
    eexists; split; [reflexivity|]. simpl. auto.
  - destruct Hwf as [Hq Hwf]. destruct (Z.eqb_spec hp h) as [->|Hne].
    + eexists; split; [reflexivity|]. simpl. auto.
    + apply IH; [assumption|lia].
Qed.

Lemma GetAncestor_wf (p : CBlockIndex) (h : Z) :
  wf_chain p -> 0 <= h <= nHeight p ->
  exists q, GetAncestor p h = Some q /\ nHeight q = h /\ wf_chain q.
Proof.
  intros Hwf Hh. unfold GetAncestor.
  rewrite Z.gtb_ltb.
  destruct (Z.ltb_spec (nHeight p) h); [lia|].
  destruct (Z.ltb_spec h 0); [lia|].
  simpl. apply walk_to_wf; assumption.
Qed.

(** ** The verifier *)

Lemma DeriveTarget_spec (nBits : Z) (pow_limit : uint256) :
  DeriveTarget nBits pow_limit =
  if isNegative nBits || (decode nBits =? 0) || isOverflow nBits
     || (decode nBits >? UintToArith256 pow_limit)
  then None else Some (decode nBits).
Proof.
  unfold DeriveTarget, isNegative, isOverflow, decode.
  destruct (SetCompact nBits) as [[v n] o]. reflexivity.
Qed.

(** C1: without the fuzzing switch, [CheckProofOfWork] fails for bits that
    decode as negative, zero, overflowed or above the power limit;
    otherwise it succeeds exactly when the hash is at most the target, so
    a hash equal to the target passes and a hash one above it fails. *)
Theorem CheckProofOfWork_range_and_compare
  (hash : uint256) (nBits : Z) (params : Params) :
  let target := decode nBits in
  let limit := UintToArith256 (powLimit params) in
  (isNegative nBits = true \/ target = 0 \/ isOverflow nBits = true
   \/ limit < target ->
   CheckProofOfWork false hash nBits params = false)
  /\ (isNegative nBits = false -> target <> 0 -> isOverflow nBits = false ->
      target <= limit ->
      (CheckProofOfWork false hash nBits params = true
       <-> UintToArith256 hash <= target)
      /\ (UintToArith256 hash = target ->
          CheckProofOfWork false hash nBits params = true)
      /\ (UintToArith256 hash = target + 1 ->
          CheckProofOfWork false hash nBits params = false)).
Proof.
  intros target limit. unfold CheckProofOfWork, CheckProofOfWorkImpl.
  rewrite DeriveTarget_spec. fold target. fold limit.
  generalize (UintToArith256 hash) as h.
  generalize (isNegative nBits) as neg, (isOverflow nBits) as ovf.
  clearbody target limit. intros neg ovf h.
  rewrite !Z.gtb_ltb.
  destruct (Z.eqb_spec target 0) as [Hz|Hz];
    destruct (Z.ltb_spec limit target) as [Hl|Hl];
    destruct neg, ovf; cbn [orb];
    (split;
     [ intros [H|[H|[H|H]]]; first [reflexivity | congruence | lia]
     | intros Hn Hz' Ho Hl'; first [congruence | lia | idtac] ]).
  rewrite Z.gtb_ltb.
  destruct (Z.ltb_spec target h) as [Hh|Hh];
    repeat split; intros; first [reflexivity | congruence | lia].
Qed.

Lemma CheckProofOfWork_range_and_compare_witness :
  CheckProofOfWork false (ArithToUint256 (decode 0x1d00ffff)) 0x1d00ffff
    legacy_params = true
  /\ CheckProofOfWork false (ArithToUint256 (decode 0x1d00ffff + 1)) 0x1d00ffff
       legacy_params = false
  /\ CheckProofOfWork false (ArithToUint256 1) 0x1d80ffff legacy_params = false.
Proof.
  destruct (CheckProofOfWork_range_and_compare
              (ArithToUint256 (decode 0x1d00ffff)) 0x1d00ffff legacy_params)
    as [_ Hok].
  destruct (CheckProofOfWork_range_and_compare
              (ArithToUint256 (decode 0x1d00ffff + 1)) 0x1d00ffff legacy_params)
    as [_ Hok'].
  destruct (CheckProofOfWork_range_and_compare
              (ArithToUint256 1) 0x1d80ffff legacy_params)
    as [Hbad _].
  split; [|split].
  - apply Hok.
    + vm_compute; reflexivity.
    + vm_compute; discriminate.
    + vm_compute; reflexivity.
    + vm_compute; discriminate.
    + vm_compute; reflexivity.
  - apply Hok'.
    + vm_compute; reflexivity.
    + vm_compute; discriminate.
    + vm_compute; reflexivity.
    + vm_compute; discriminate.
    + vm_compute; reflexivity.
  - apply Hbad. left. vm_compute; reflexivity.
Defined.

Lemma byte_top_bit (b : byte) :
  (Z.land (Z.of_N (Byte.to_N b)) 0x80 =? 0)
  = negb (Z.testbit (Z.of_N (Byte.to_N b)) 7).
Proof. destruct b; reflexivity. Qed.

(** C10: with the fuzzing switch on, [CheckProofOfWork] is true exactly
    when bit 7 of byte 31 of the hash is clear; two calls whose hashes
    agree on that bit agree, whatever the bits, the parameters and the
    rest of the hash. *)
Theorem CheckProofOfWork_fuzzing_one_bit :
  (forall hash nBits params,
      CheckProofOfWork true hash nBits params
      = negb (Z.testbit (data hash 31) 7))
  /\ (forall hash1 hash2 nBits1 nBits2 params1 params2,
         Z.testbit (data hash1 31) 7 = Z.testbit (data hash2 31) 7 ->
         CheckProofOfWork true hash1 nBits1 params1
         = CheckProofOfWork true hash2 nBits2 params2).
Proof.
  assert (E : forall hash nBits params,
             CheckProofOfWork true hash nBits params
             = negb (Z.testbit (data hash 31) 7)).
  { intros. unfold CheckProofOfWork, data. apply byte_top_bit. }
  split; [exact E|].
  intros h1 h2 b1 b2 p1 p2 H. rewrite !E, H. reflexivity.
Qed.

Lemma CheckProofOfWork_fuzzing_one_bit_witness :
  CheckProofOfWork true (ArithToUint256 (2 ^ 254 + 5)) 0x1d00ffff legacy_params
  = CheckProofOfWork true (ArithToUint256 77) 0 flagged_params.
Proof.
  apply (proj2 CheckProofOfWork_fuzzing_one_bit).
  vm_compute; reflexivity.
Defined.

(** ** The bootstrap guard *)

(** C9: while the tip height plus one is below the averaging window,
    [GetNextWorkRequired] returns the compact power limit, before any
    dispatch on the era or on the flags. *)
Theorem GetNextWorkRequired_bootstrap
  (pIndexLast : CBlockIndex) (pBlock : CBlockHeader) (params : Params) :
  nHeight pIndexLast + 1 < nLWMAAveragingWindow params ->
  GetNextWorkRequired pIndexLast pBlock params
  = Some (GetCompact (UintToArith256 (powLimit params))).
Proof.
  intros H. unfold GetNextWorkRequired.
  apply Z.ltb_lt in H. rewrite H. reflexivity.
Qed.

Lemma GetNextWorkRequired_bootstrap_witness :
  GetNextWorkRequired (tip_of (1200, 0x1c00ffff) [(600, 0x1c00ffff); (0, 0x1c00ffff)])
    {| hdr_nTime := 1800 |} flagged_params
  = Some 0x1d00ffff.
Proof.
  apply (GetNextWorkRequired_bootstrap
           (tip_of (1200, 0x1c00ffff) [(600, 0x1c00ffff); (0, 0x1c00ffff)])
           {| hdr_nTime := 1800 |} flagged_params).
  vm_compute; reflexivity.
Defined.

(** ** Exact 256-bit arithmetic *)

Lemma wrap_small (z : Z) : 0 <= z < 2 ^ 256 -> wrap z = z.
Proof. intros H. unfold wrap, modulus. apply Z.mod_small. exact H. Qed.

Lemma wrap_range (z : Z) : 0 <= wrap z < 2 ^ 256.
Proof. unfold wrap, modulus. apply Z.mod_pos_bound. lia. Qed.

Lemma mul_exact (a b : Z) :
  0 <= a -> 0 <= b < 2 ^ 32 -> a * b < 2 ^ 256 -> mul a b = a * b.
Proof.
  intros Ha Hb Hab. unfold mul, to_uint32.
  rewrite (Z.mod_small b) by exact Hb.
  apply wrap_small. split; [apply Z.mul_nonneg_nonneg; lia | exact Hab].
Qed.

Lemma div_exact (a b : Z) : 0 < b < 2 ^ 64 -> div a b = Some (a / b).
Proof.
  intros Hb. unfold div, to_uint64.
  rewrite (Z.mod_small b) by lia.
  destruct (Z.eqb_spec b 0); [lia | reflexivity].
Qed.

Lemma decode_range (nCompact : Z) : 0 <= decode nCompact < 2 ^ 256.
Proof.
  unfold decode, SetCompact. cbn [fst].
  destruct (Z.shiftr nCompact 24 <=? 3) eqn:E.
  - assert (H0 : 0 <= Z.land nCompact 8388607).
    { apply Z.land_nonneg. right. lia. }
    assert (H1 : Z.land nCompact 8388607 <= 8388607).
    { assert (H2 : Z.land nCompact 8388607 = Z.land nCompact (Z.ones 23))
        by reflexivity.
      rewrite H2, Z.land_ones by lia.
      pose proof (Z.mod_pos_bound nCompact (2 ^ 23) ltac:(lia)). lia. }
    apply Z.leb_le in E.
    rewrite Z.shiftr_div_pow2 by lia.
    assert (Hp : 0 < 2 ^ (8 * (3 - Z.shiftr nCompact 24)))
      by (apply Z.pow_pos_nonneg; lia).
    split.
    + apply Z.div_pos; lia.
    + apply Z.le_lt_trans with (Z.land nCompact 8388607).
      * apply Z.div_le_upper_bound; [lia|]. nia.
      * lia.
  - apply wrap_range.
Qed.


(** ** The legacy retarget *)





(** ** The backward walk over min-difficulty blocks *)

Lemma rem_pred (h interval : Z) :
  0 < h -> interval <> 0 -> Z.rem h interval <> 0 ->
  Z.rem (h - 1) interval = Z.rem h interval - 1.
Proof.
  intros Hh Hi Hr.
  assert (Hm : 0 < Z.abs interval) by lia.
  assert (E : forall a, 0 <= a -> Z.rem a interval = a mod Z.abs interval).
  { intros a Ha. rewrite <- (Z.rem_abs_r a interval) by exact Hi.
    apply Z.rem_mod_nonneg; lia. }
  rewrite E in Hr by lia. rewrite !E by lia.
  pose proof (Z.mod_pos_bound h (Z.abs interval) Hm) as Hb.
  symmetry. apply Z.mod_unique with (q := h / Z.abs interval); [lia|].
  pose proof (Z.div_mod h (Z.abs interval) ltac:(lia)). lia.
Qed.

Lemma rem_height_bound (h interval : Z) :
  0 <= h -> interval <> 0 -> 0 <= Z.rem h interval < Z.abs interval.
Proof.
  intros Hh Hi. rewrite <- (Z.rem_abs_r h interval) by exact Hi.
  apply Z.rem_bound_pos; lia.
Qed.

Lemma skip_min_difficulty_walk (interval limit : Z) (p : CBlockIndex) :
  interval <> 0 -> wf_chain p ->
  skip_min_difficulty interval limit p
  = nth_parent (skip_steps interval limit p) p
  /\ Z.of_nat (skip_steps interval limit p) <= Z.rem (nHeight p) interval
  /\ nHeight (skip_min_difficulty interval limit p)
     = nHeight p - Z.of_nat (skip_steps interval limit p)
  /\ skip_condition interval limit (skip_min_difficulty interval limit p) = false
  /\ (forall j, (j < skip_steps interval limit p)%nat ->
                skip_condition interval limit (nth_parent j p) = true).
Proof.
  intros Hi.
  induction p as [h t b|h t b q IH] using CBlockIndex_parent_ind; intros Hwf.
  - simpl in *. subst h. repeat split; try reflexivity. intros j Hj. lia.
  - destruct Hwf as [Hq Hwf]. cbn [nHeight] in Hq.
    pose proof (wf_chain_height_nonneg q Hwf) as Hq0.
    specialize (IH Hwf). destruct IH as (IH1 & IH2 & IH3 & IH4 & IH5).
    cbn [skip_min_difficulty skip_steps pprev nHeight nBits].
    destruct (negb (Z.rem h interval =? 0) && (b =? limit)) eqn:Ec.
    + apply andb_prop in Ec. destruct Ec as [Er Eb].
      apply negb_true_iff, Z.eqb_neq in Er.
      cbn [nth_parent pprev]. repeat split.
      * exact IH1.
      * rewrite Hq in IH2. rewrite rem_pred in IH2 by lia. lia.
      * rewrite IH3. lia.
      * exact IH4.
      * intros [|j] Hj.
        -- cbn [nth_parent]. unfold skip_condition.
           cbn [pprev nHeight nBits].
           apply Z.eqb_neq in Er. rewrite Er, Eb. reflexivity.
        -- cbn [nth_parent pprev]. apply IH5. lia.
    + cbn [nth_parent]. repeat split.
      * pose proof (rem_height_bound h interval ltac:(lia) Hi). cbn. lia.
      * cbn. lia.
      * unfold skip_condition. cbn [pprev nHeight nBits]. exact Ec.
      * intros j Hj. cbn in Hj. lia.
Qed.

(** C8: with allow-min-difficulty set, on a well-formed chain and for an
    interval other than zero, the off-boundary backward walk ends: the
    block it returns lies [skip_steps] parents back, every block it passed
    over had a parent, an off-boundary height and the power-limit bits,
    the block it stops at has no parent, or a height on the interval
    boundary, or other bits, and the number of steps stays below the
    interval. *)
Theorem BitcoinGetNextWorkRequired_walk_bounded
  (pindexLast : CBlockIndex) (pblock : CBlockHeader) (params : Params)
  (interval : Z) :
  fPowAllowMinDifficultyBlocks params = true ->
  wf_chain pindexLast ->
  DifficultyAdjustmentInterval params = Some interval ->
  interval <> 0 ->
  Z.rem (nHeight pindexLast + 1) interval <> 0 ->
  HeaderGetBlockTime pblock
  <= GetBlockTime pindexLast + nPowTargetSpacing params * 2 ->
  let limit := GetCompact (UintToArith256 (powLimit params)) in
  let steps := skip_steps interval limit pindexLast in
  let stop := nth_parent steps pindexLast in
  BitcoinGetNextWorkRequired pindexLast pblock params = Some (nBits stop)
  /\ (forall j, (j < steps)%nat ->
        pprev (nth_parent j pindexLast) <> None
        /\ Z.rem (nHeight (nth_parent j pindexLast)) interval <> 0
        /\ nBits (nth_parent j pindexLast) = limit)
  /\ (pprev stop = None \/ Z.rem (nHeight stop) interval = 0
      \/ nBits stop <> limit)
  /\ nHeight stop = nHeight pindexLast - Z.of_nat steps
  /\ Z.of_nat steps < Z.abs interval.
Proof.
  intros Hflag Hwf Hint Hi Hoff Htime limit steps stop.
  destruct (skip_min_difficulty_walk interval limit pindexLast Hi Hwf)
    as (W1 & W2 & W3 & W4 & W5).
  fold steps in W1, W2, W3, W5. fold stop in W1. rewrite W1 in W3, W4.
  split; [|split; [|split; [|split]]].
  - unfold BitcoinGetNextWorkRequired. rewrite Hint. unfold cpp_rem.
    destruct (Z.eqb_spec interval 0) as [|_]; [contradiction|].
    apply Z.eqb_neq in Hoff. rewrite Hoff. cbn [negb]. rewrite Hflag.
    rewrite Z.gtb_ltb.
    destruct (Z.ltb_spec (GetBlockTime pindexLast + nPowTargetSpacing params * 2)
                (HeaderGetBlockTime pblock)); [lia|].
    fold limit. rewrite W1. reflexivity.
  - intros j Hj. specialize (W5 j Hj). unfold skip_condition in W5.
    destruct (pprev (nth_parent j pindexLast)); [|discriminate].
    apply andb_prop in W5. destruct W5 as [Er Eb].
    apply negb_true_iff, Z.eqb_neq in Er. apply Z.eqb_eq in Eb.
    repeat split; [discriminate|exact Er|exact Eb].
  - unfold skip_condition in W4.
    destruct (pprev stop); [|left; reflexivity].
    apply andb_false_iff in W4. destruct W4 as [Er|Eb].
    + right; left. apply negb_false_iff, Z.eqb_eq in Er. exact Er.
    + right; right. apply Z.eqb_neq in Eb. exact Eb.
  - exact W3.
  - pose proof (rem_height_bound (nHeight pindexLast) interval
                  (wf_chain_height_nonneg _ Hwf) Hi). lia.
Qed.

Lemma BitcoinGetNextWorkRequired_walk_bounded_witness :
  BitcoinGetNextWorkRequired testnet_tip {| hdr_nTime := 6600 |} testnet_params
  = Some 0x1c00ffff.
Proof.
  refine (proj1 (BitcoinGetNextWorkRequired_walk_bounded testnet_tip
                   {| hdr_nTime := 6600 |} testnet_params 4 _ _ _ _ _ _)).
  - reflexivity.
  - exact (wf_tip_of _ _).
  - reflexivity.
  - discriminate.
  - vm_compute; discriminate.
  - vm_compute; discriminate.
Defined.

(** ** The moving-average loop *)

Lemma lwma_iter_snoc (n : nat) (p : CBlockIndex) (T : Z) (st : LoopState) :
  lwma_iter (S n) p T st = (st' <- lwma_iter n p T st ;; lwma_body p T st').
Proof.
  revert st. induction n as [|n IH]; intros st.
  - simpl. destruct (lwma_body p T st); reflexivity.
  - change (lwma_iter (S (S n)) p T st)
      with (st' <- lwma_body p T st ;; lwma_iter (S n) p T st').
    destruct (lwma_body p T st) as [st'|] eqn:E.
    + rewrite IH. simpl. rewrite E. reflexivity.
    + simpl. rewrite E. reflexivity.
Qed.

(** The [for] loop is the body repeated: starting [n] heights below the
    tip it makes exactly [n] passes. *)
Lemma lwma_loop_iter (n : nat) (p : CBlockIndex) (T height : Z) (st : LoopState) :
  ls_i st = height - Z.of_nat n + 1 ->
  lwma_loop n p T height st = lwma_iter n p T st.
Proof.
  revert st. induction n as [|n IH]; intros st Hi.
  - simpl. destruct (Z.leb_spec (ls_i st) height); [lia|reflexivity].
  - cbn [lwma_loop lwma_iter].
    destruct (Z.leb_spec (ls_i st) height); [|lia].
    destruct (lwma_body p T st) as [st'|] eqn:E; [|reflexivity].
    apply IH. unfold lwma_body in E.
    destruct (GetAncestor p (ls_i st)); [|discriminate].
    injection E as <-. cbn [ls_i]. lia.
Qed.






(** ** The limits on the moving average *)






(** ** The transition validator *)

Lemma PermittedDifficultyTransition_boundary
  (params : Params) (height old_nbits new_nbits interval : Z) :
  fPowAllowMinDifficultyBlocks params = false ->
  DifficultyAdjustmentInterval params = Some interval ->
  interval <> 0 ->
  Z.rem height interval = 0 ->
  to_uint64 (nPowTargetTimespan params) <> 0 ->
  PermittedDifficultyTransition params height old_nbits new_nbits
  = Some ((minimum_new_target params old_nbits <=? decode new_nbits)
          && (decode new_nbits <=? maximum_new_target params old_nbits)).
Proof.
  intros Hflag Hint Hi Hrem Hts.
  unfold PermittedDifficultyTransition. rewrite Hflag, Hint.
  unfold cpp_rem. destruct (Z.eqb_spec interval 0) as [|_]; [contradiction|].
  rewrite Hrem. cbn [Z.eqb]. unfold div.
  destruct (Z.eqb_spec (to_uint64 (nPowTargetTimespan params)) 0) as [|_];
    [contradiction|].
  fold (maximum_new_target params old_nbits).
  rewrite !Z.gtb_ltb.
  set (limit := UintToArith256 (powLimit params)).
  set (ts := to_uint64 (nPowTargetTimespan params)).
  assert (Emax : decode (GetCompact
                   (if limit <? mul (decode old_nbits)
                                  (nPowTargetTimespan params * 4) / ts
                    then limit
                    else mul (decode old_nbits)
                           (nPowTargetTimespan params * 4) / ts))
                 = maximum_new_target params old_nbits).
  { unfold maximum_new_target, scaledBound. fold limit ts. f_equal. f_equal.
    destruct (Z.ltb_spec limit
                (mul (decode old_nbits) (nPowTargetTimespan params * 4) / ts));
      lia. }
  assert (Emin : decode (GetCompact
                   (if limit <? mul (decode old_nbits)
                                  (Z.quot (nPowTargetTimespan params) 4) / ts
                    then limit
                    else mul (decode old_nbits)
                           (Z.quot (nPowTargetTimespan params) 4) / ts))
                 = minimum_new_target params old_nbits).
  { unfold minimum_new_target, scaledBound. fold limit ts. f_equal. f_equal.
    destruct (Z.ltb_spec limit
                (mul (decode old_nbits)
                   (Z.quot (nPowTargetTimespan params) 4) / ts));
      lia. }
  rewrite Emax, Emin.
  destruct (Z.ltb_spec (maximum_new_target params old_nbits) (decode new_nbits));
    destruct (Z.ltb_spec (decode new_nbits) (minimum_new_target params old_nbits));
    destruct (Z.leb_spec (minimum_new_target params old_nbits) (decode new_nbits));
    destruct (Z.leb_spec (decode new_nbits) (maximum_new_target params old_nbits));
    first [reflexivity | lia].
Qed.

Lemma PermittedDifficultyTransition_bounds
  (params : Params) (height old_nbits new_nbits interval : Z) :
  let ts := nPowTargetTimespan params in
  let limit := UintToArith256 (powLimit params) in
  let observed := decode new_nbits in
  fPowAllowMinDifficultyBlocks params = false ->
  DifficultyAdjustmentInterval params = Some interval ->
  interval <> 0 ->
  Z.rem height interval = 0 ->
  0 < ts ->
  ts * 4 < 2 ^ 32 ->
  decode old_nbits * (ts * 4) < 2 ^ 256 ->
  maximum_new_target params old_nbits
  = decode (GetCompact (Z.min (decode old_nbits * 4) limit))
  /\ minimum_new_target params old_nbits
     = decode (GetCompact
                 (Z.min (decode old_nbits * Z.quot ts 4 / ts) limit))
  /\ (ts mod 4 = 0 ->
      minimum_new_target params old_nbits
      = decode (GetCompact (Z.min (decode old_nbits / 4) limit)))
  /\ (PermittedDifficultyTransition params height old_nbits new_nbits
      = Some true
      <-> minimum_new_target params old_nbits <= observed
          <= maximum_new_target params old_nbits)
  /\ (PermittedDifficultyTransition params height old_nbits new_nbits
      = Some false
      <-> ~ (minimum_new_target params old_nbits <= observed
             <= maximum_new_target params old_nbits)).
Proof.
  intros ts limit observed Hflag Hint Hi Hrem Hts Hts4 Hfit.
  pose proof (decode_range old_nbits) as Hd.
  assert (Hq : 0 <= Z.quot ts 4 <= ts).
  { rewrite Z.quot_div_nonneg by lia. split; [apply Z.div_pos; lia|].
    apply Z.div_le_upper_bound; lia. }
  assert (Ets : to_uint64 ts = ts) by (unfold to_uint64; apply Z.mod_small; lia).
  assert (Emax : maximum_new_target params old_nbits
                 = decode (GetCompact (Z.min (decode old_nbits * 4) limit))).
  { unfold maximum_new_target, scaledBound. fold ts limit. rewrite Ets.
    rewrite mul_exact by lia.
    rewrite Z.mul_assoc, (Z.mul_comm (decode old_nbits) ts), <- Z.mul_assoc.
    rewrite (Z.mul_comm ts), Z.div_mul by lia. reflexivity. }
  assert (Emin : minimum_new_target params old_nbits
                 = decode (GetCompact
                             (Z.min (decode old_nbits * Z.quot ts 4 / ts) limit))).
  { unfold minimum_new_target, scaledBound. fold ts limit. rewrite Ets.
    rewrite mul_exact by nia. reflexivity. }
  split; [exact Emax|]. split; [exact Emin|]. split.
  { intros Hmod. rewrite Emin. do 3 f_equal.
    rewrite Z.quot_div_nonneg by lia.
    assert (E4 : ts = 4 * (ts / 4)).
    { pose proof (Z.div_mod ts 4 ltac:(lia)). lia. }
    generalize dependent (ts / 4). intros q E4.
    rewrite E4. apply Z.div_mul_cancel_r; lia. }
  rewrite (PermittedDifficultyTransition_boundary params height old_nbits
             new_nbits interval Hflag Hint Hi Hrem) by (fold ts; lia).
  fold observed.
  destruct (Z.leb_spec (minimum_new_target params old_nbits) observed);
    destruct (Z.leb_spec observed (maximum_new_target params old_nbits));
    cbn [andb]; split; split; intros; first [reflexivity | discriminate | lia].
Qed.



(** ** Rounding through the compact form *)

Lemma land_pow2 (a n : Z) :
  0 <= n -> Z.land a (2 ^ n) = if Z.testbit a n then 2 ^ n else 0.
Proof.
  intros Hn. apply Z.bits_inj'. intros m Hm.
  rewrite Z.land_spec, Z.pow2_bits_eqb by exact Hn.
  destruct (Z.eqb_spec n m) as [->|Hne].
  - destruct (Z.testbit a m); simpl.
    + rewrite Z.pow2_bits_true by exact Hm. reflexivity.
    + rewrite Z.bits_0. reflexivity.
  - rewrite andb_false_r. destruct (Z.testbit a n).
    + rewrite Z.pow2_bits_false by lia. reflexivity.
    + rewrite Z.bits_0. reflexivity.
Qed.

Lemma sign_bit_clear (c : Z) :
  0 <= c < 2 ^ 24 -> (Z.land c 0x00800000 =? 0) = (c <? 2 ^ 23).
Proof.
  intros Hc. change 0x00800000 with (2 ^ 23). rewrite land_pow2 by lia.
  destruct (Z.ltb_spec c (2 ^ 23)) as [Hlt|Hge].
  - rewrite Z.bits_above_log2; [reflexivity|lia|].
    destruct (Z.eq_dec c 0) as [->|Hne]; [simpl; lia|].
    apply Z.log2_lt_pow2; lia.
  - assert (E : Z.testbit c 23 = true).
    { apply Z.testbit_true; [lia|].
      assert (c / 2 ^ 23 = 1).
      { symmetry. apply Z.div_unique with (r := c - 2 ^ 23); lia. }
      rewrite H. reflexivity. }
    rewrite E. reflexivity.
Qed.

(** Decoding a mantissa below [2^23] packed under a size byte. *)
Lemma decode_packed (c size : Z) :
  0 <= c < 2 ^ 23 -> 0 <= size ->
  decode (Z.lor c (Z.shiftl size 24))
  = if size <=? 3 then c / 2 ^ (8 * (3 - size))
    else wrap (c * 2 ^ (8 * (size - 3))).
Proof.
  intros Hc Hs. unfold decode, SetCompact. cbn [fst].
  assert (E1 : Z.shiftr (Z.lor c (Z.shiftl size 24)) 24 = size).
  { rewrite Z.shiftr_lor, Z.shiftr_shiftl_l by lia.
    rewrite Z.shiftr_div_pow2 by lia. rewrite Z.div_small by lia.
    rewrite Z.sub_diag. apply Z.shiftl_0_r. }
  assert (E2 : Z.land (Z.lor c (Z.shiftl size 24)) 0x007fffff = c).
  { change 0x007fffff with (Z.ones 23).
    rewrite Z.land_lor_distr_l, !Z.land_ones by lia.
    rewrite Z.shiftl_mul_pow2 by lia.
    change (2 ^ 24) with (2 * 2 ^ 23). rewrite Z.mul_assoc.
    rewrite Z.mod_mul by lia. rewrite Z.lor_0_r.
    apply Z.mod_small. lia. }
  rewrite E1, E2.
  destruct (Z.leb_spec size 3).
  - apply Z.shiftr_div_pow2. lia.
  - rewrite Z.shiftl_mul_pow2 by lia. reflexivity.
Qed.

(** The size in bytes that [GetCompact] starts from. *)
Lemma byte_size_spec (y : Z) :
  0 < y < 2 ^ 256 ->
  let n := (bits y + 7) / 8 in
  1 <= n <= 32 /\ 2 ^ (8 * (n - 1)) <= y < 2 ^ (8 * n).
Proof.
  intros Hy n. unfold bits in n.
  destruct (Z.eqb_spec y 0) as [|_]; [lia|].
  pose proof (Z.log2_spec y ltac:(lia)) as [Hlo Hhi].
  pose proof (Z.log2_nonneg y) as H0.
  assert (Hlt : Z.log2 y < 256) by (apply Z.log2_lt_pow2; lia).
  assert (Hn : 8 * (n - 1) <= Z.log2 y < 8 * n).
  { unfold n. pose proof (Z.div_mod (Z.log2 y + 1 + 7) 8 ltac:(lia)).
    pose proof (Z.mod_pos_bound (Z.log2 y + 1 + 7) 8 ltac:(lia)). lia. }
  split; [lia|]. split.
  - apply Z.le_trans with (2 ^ Z.log2 y); [|exact Hlo].
    apply Z.pow_le_mono_r; lia.
  - apply Z.lt_le_trans with (2 ^ Z.succ (Z.log2 y)); [exact Hhi|].
    apply Z.pow_le_mono_r; lia.
Qed.

Lemma GetCompact_unfold (y : Z) :
  GetCompact y
  = let n := (bits y + 7) / 8 in
    let c0 := if n <=? 3
              then to_uint32 (Z.shiftl (to_uint64 y) (8 * (3 - n)))
              else to_uint32 (to_uint64 (Z.shiftr y (8 * (n - 3)))) in
    if Z.land c0 0x00800000 =? 0
    then Z.lor c0 (Z.shiftl n 24)
    else Z.lor (Z.shiftr c0 8) (Z.shiftl (n + 1) 24).
Proof.
  unfold GetCompact. cbv zeta.
  destruct (Z.land _ 0x00800000 =? 0); reflexivity.
Qed.

Lemma decode_packed_mantissa (c0 n : Z) :
  0 <= c0 < 2 ^ 24 -> 0 <= n ->
  decode (if Z.land c0 0x00800000 =? 0
          then Z.lor c0 (Z.shiftl n 24)
          else Z.lor (Z.shiftr c0 8) (Z.shiftl (n + 1) 24))
  = if c0 <? 2 ^ 23
    then (if n <=? 3 then c0 / 2 ^ (8 * (3 - n))
          else wrap (c0 * 2 ^ (8 * (n - 3))))
    else (if n + 1 <=? 3 then c0 / 2 ^ 8 / 2 ^ (8 * (3 - (n + 1)))
          else wrap (c0 / 2 ^ 8 * 2 ^ (8 * (n + 1 - 3)))).
Proof.
  intros Hc Hn. rewrite sign_bit_clear by exact Hc.
  destruct (Z.ltb_spec c0 (2 ^ 23)).
  - apply decode_packed; lia.
  - rewrite Z.shiftr_div_pow2 by lia. apply decode_packed; [|lia].
    split; [apply Z.div_pos; lia|]. apply Z.div_lt_upper_bound; lia.
Qed.

(** Encoding and decoding again drops low-order bytes: the result is the
    value with its lowest [s] bytes cleared, and when bytes are dropped
    the value has at least 15 bits above them. *)
Lemma GetCompact_decode_floor (y : Z) :
  0 <= y < 2 ^ 256 ->
  exists s, 0 <= s
            /\ decode (GetCompact y) = y / 2 ^ (8 * s) * 2 ^ (8 * s)
            /\ (0 < s -> 2 ^ 15 * 2 ^ (8 * s) <= y).
Proof.
  intros Hy. destruct (Z.eq_dec y 0) as [->|Hne].
  { exists 0. split; [lia|]. split; [reflexivity|lia]. }
  pose proof (byte_size_spec y ltac:(lia)) as (Hn & Hlo & Hhi).
  rewrite GetCompact_unfold. cbv zeta.
  remember ((bits y + 7) / 8) as n eqn:En. clear En.
  destruct (Z.leb_spec n 3) as [Hsmall|Hbig].
  - assert (Hy24 : y < 2 ^ 24).
    { apply Z.lt_le_trans with (2 ^ (8 * n)); [exact Hhi|].
      apply Z.pow_le_mono_r; lia. }
    assert (Ey : to_uint64 y = y) by (unfold to_uint64; apply Z.mod_small; lia).
    rewrite Ey, Z.shiftl_mul_pow2 by lia.
    assert (Hc : 0 <= y * 2 ^ (8 * (3 - n)) < 2 ^ 24).
    { assert (Hcases : n = 1 \/ n = 2 \/ n = 3) by lia.
      destruct Hcases as [-> | [-> | ->]];
        change (8 * (1 - 1)) with 0 in *; change (8 * (2 - 1)) with 8 in *;
        change (8 * (3 - 1)) with 16 in *; change (8 * 1) with 8 in *;
        change (8 * 2) with 16 in *; change (8 * 3) with 24 in *;
        change (8 * (3 - 2)) with 8; change (8 * (3 - 3)) with 0; lia. }
    assert (Ec : to_uint32 (y * 2 ^ (8 * (3 - n))) = y * 2 ^ (8 * (3 - n)))
      by (unfold to_uint32; apply Z.mod_small; lia).
    rewrite Ec, decode_packed_mantissa by lia.
    destruct (Z.ltb_spec (y * 2 ^ (8 * (3 - n))) (2 ^ 23)) as [Hlt|Hge].
    + exists 0. split; [lia|]. split; [|lia].
      destruct (Z.leb_spec n 3); [|lia].
      rewrite Z.div_mul by (apply Z.pow_nonzero; lia).
      change (2 ^ (8 * 0)) with 1. rewrite Z.div_1_r. lia.
    + destruct (Z.leb_spec (n + 1) 3) as [Hn2|Hn3].
      * exists 0. split; [lia|]. split; [|lia].
        rewrite Z.div_div by lia.
        replace (2 ^ 8 * 2 ^ (8 * (3 - (n + 1)))) with (2 ^ (8 * (3 - n))).
        -- rewrite Z.div_mul by (apply Z.pow_nonzero; lia).
           change (2 ^ (8 * 0)) with 1. rewrite Z.div_1_r. lia.
        -- rewrite <- Z.pow_add_r by lia. f_equal. lia.
      * assert (n = 3) by lia. subst n.
        change (8 * (3 - 3)) with 0 in *. change (2 ^ 0) with 1 in *.
        rewrite Z.mul_1_r in *. change (8 * (3 + 1 - 3)) with 8.
        exists 1. split; [lia|]. change (8 * 1) with 8.
        split; [|lia]. apply wrap_small.
        pose proof (Z.div_mod y (2 ^ 8) ltac:(lia)).
        pose proof (Z.mod_pos_bound y (2 ^ 8) ltac:(lia)). lia.
  - set (P := 2 ^ (8 * (n - 3))).
    assert (HP : 0 < P) by (apply Z.pow_pos_nonneg; lia).
    assert (E16 : 2 ^ (8 * (n - 1)) = 2 ^ 16 * P).
    { unfold P. rewrite <- Z.pow_add_r by lia. f_equal. lia. }
    assert (E24 : 2 ^ (8 * n) = 2 ^ 24 * P).
    { unfold P. rewrite <- Z.pow_add_r by lia. f_equal. lia. }
    rewrite Z.shiftr_div_pow2 by lia. fold P.
    assert (Hc : 2 ^ 16 <= y / P < 2 ^ 24).
    { split.
      - apply Z.div_le_lower_bound; lia.
      - apply Z.div_lt_upper_bound; lia. }
    assert (Ec : to_uint32 (to_uint64 (y / P)) = y / P).
    { unfold to_uint32, to_uint64.
      rewrite (Z.mod_small (y / P) (2 ^ 64)) by lia.
      apply Z.mod_small. lia. }
    rewrite Ec, decode_packed_mantissa by lia.
    pose proof (Z.div_mod y P ltac:(lia)) as Hdm.
    pose proof (Z.mod_pos_bound y P HP) as Hmb.
    destruct (Z.ltb_spec (y / P) (2 ^ 23)) as [Hlt|Hge].
    + destruct (Z.leb_spec n 3); [lia|]. fold P.
      exists (n - 3). fold P. split; [lia|]. split.
      * apply wrap_small. nia.
      * intros _. lia.
    + destruct (Z.leb_spec (n + 1) 3); [lia|].
      assert (EP : 2 ^ (8 * (n + 1 - 3)) = 2 ^ 8 * P).
      { unfold P. rewrite <- Z.pow_add_r by lia. f_equal. lia. }
      rewrite EP. exists (n - 2).
      replace (8 * (n - 2)) with (8 * (n + 1 - 3)) by lia. rewrite EP.
      rewrite Z.div_div by lia. rewrite (Z.mul_comm P).
      pose proof (Z.div_mod y (2 ^ 8 * P) ltac:(lia)) as Hdm'.
      pose proof (Z.mod_pos_bound y (2 ^ 8 * P) ltac:(lia)) as Hmb'.
      split; [lia|]. split.
      * apply wrap_small. nia.
      * intros _. nia.
Qed.

(** Every decoded value is a mantissa below [2^23] shifted by whole
    bytes. *)
Lemma decode_shape (nCompact : Z) :
  exists w e, 0 <= w < 2 ^ 23 /\ 0 <= e /\ decode nCompact = w * 2 ^ (8 * e).
Proof.
  unfold decode, SetCompact. cbn [fst].
  set (w0 := Z.land nCompact 0x007fffff).
  assert (Hw0 : 0 <= w0 < 2 ^ 23).
  { unfold w0. change 0x007fffff with (Z.ones 23). rewrite Z.land_ones by lia.
    apply Z.mod_pos_bound. lia. }
  set (n := Z.shiftr nCompact 24).
  destruct (Z.leb_spec n 3) as [Hsmall|Hbig].
  - exists (Z.shiftr w0 (8 * (3 - n))), 0.
    rewrite Z.shiftr_div_pow2 by lia.
    assert (0 < 2 ^ (8 * (3 - n))) by (apply Z.pow_pos_nonneg; lia).
    split; [|split; [lia|change (2 ^ (8 * 0)) with 1; lia]].
    split; [apply Z.div_pos; lia|].
    apply Z.le_lt_trans with w0; [|lia].
    apply Z.div_le_upper_bound; [lia|]. nia.
  - rewrite Z.shiftl_mul_pow2 by lia. unfold wrap, modulus.
    destruct (Z.le_gt_cases 256 (8 * (n - 3))) as [Hover|Hfit].
    + exists 0, 0. split; [lia|]. split; [lia|].
      replace (8 * (n - 3)) with ((8 * (n - 3) - 256) + 256) by lia.
      rewrite Z.pow_add_r by lia. rewrite Z.mul_assoc.
      rewrite Z.mod_mul by lia. reflexivity.
    + exists (w0 mod 2 ^ (256 - 8 * (n - 3))), (n - 3).
      assert (0 < 2 ^ (256 - 8 * (n - 3))) by (apply Z.pow_pos_nonneg; lia).
      pose proof (Z.mod_pos_bound w0 (2 ^ (256 - 8 * (n - 3))) ltac:(lia)).
      pose proof (Z.mod_le w0 (2 ^ (256 - 8 * (n - 3))) ltac:(lia) ltac:(lia)).
      split; [lia|]. split; [lia|].
      replace (2 ^ 256)
        with (2 ^ (256 - 8 * (n - 3)) * 2 ^ (8 * (n - 3))).
      * apply Z.mul_mod_distr_r; apply Z.pow_nonzero; lia.
      * rewrite <- Z.pow_add_r by lia. f_equal. lia.
Qed.

Lemma GetCompact_decode_le (y : Z) :
  0 <= y < 2 ^ 256 -> decode (GetCompact y) <= y.
Proof.
  intros Hy. destruct (GetCompact_decode_floor y Hy) as (s & Hs & E & _).
  rewrite E.
  assert (HP : 0 < 2 ^ (8 * s)) by (apply Z.pow_pos_nonneg; lia).
  pose proof (Z.div_mod y (2 ^ (8 * s)) ltac:(lia)).
  pose proof (Z.mod_pos_bound y (2 ^ (8 * s)) HP). lia.
Qed.

(** A decoded value survives the rounding of anything above it. *)
Lemma GetCompact_decode_above (nCompact y : Z) :
  decode nCompact <= y < 2 ^ 256 ->
  decode nCompact <= decode (GetCompact y).
Proof.
  intros Hy. pose proof (decode_range nCompact) as Hx.
  destruct (decode_shape nCompact) as (w & e & Hw & He & Ex).
  destruct (GetCompact_decode_floor y ltac:(lia)) as (s & Hs & E & Hbig).
  rewrite E. rewrite Ex in *.
  assert (HP : 0 < 2 ^ (8 * s)) by (apply Z.pow_pos_nonneg; lia).
  destruct (Z.le_gt_cases s e) as [Hse|Hes].
  - assert (Ee : 2 ^ (8 * e) = 2 ^ (8 * (e - s)) * 2 ^ (8 * s)).
    { rewrite <- Z.pow_add_r by lia. f_equal. lia. }
    rewrite Ee, Z.mul_assoc in *.
    apply Z.mul_le_mono_nonneg_r; [lia|].
    apply Z.div_le_lower_bound; lia.
  - specialize (Hbig ltac:(lia)).
    assert (Ee : 2 ^ (8 * s) = 2 ^ (8 * (s - e)) * 2 ^ (8 * e)).
    { rewrite <- Z.pow_add_r by lia. f_equal. lia. }
    assert (H8 : 2 ^ 8 <= 2 ^ (8 * (s - e)))
      by (apply Z.pow_le_mono_r; lia).
    assert (He0 : 0 < 2 ^ (8 * e)) by (apply Z.pow_pos_nonneg; lia).
    apply Z.le_trans with (2 ^ 15 * 2 ^ (8 * s)).
    + rewrite Ee. nia.
    + apply Z.mul_le_mono_nonneg_r; [lia|].
      apply Z.div_le_lower_bound; lia.
Qed.

Lemma data_range (h : uint256) (i : nat) : 0 <= data h i < 256.
Proof.
  unfold data. pose proof (Byte.to_N_bounded (nth i h x00)). lia.
Qed.

Lemma le_value_range (h : uint256) (n i : nat) :
  0 <= le_value h i n < 2 ^ (8 * Z.of_nat n).
Proof.
  revert i. induction n as [|n IH]; intros i.
  - simpl. lia.
  - cbn [le_value]. specialize (IH (S i)). pose proof (data_range h i).
    replace (8 * Z.of_nat (S n)) with (8 + 8 * Z.of_nat n) by lia.
    rewrite Z.pow_add_r by lia. change (2 ^ 8) with 256. lia.
Qed.

Lemma UintToArith256_range (h : uint256) : 0 <= UintToArith256 h < 2 ^ 256.
Proof. exact (le_value_range h 32 0). Qed.

(** C5, as the code has it: with allow-min-difficulty clear the validator
    rejects every change of bits at a height off the interval boundary;
    unchanged bits are accepted whenever allow-min-difficulty is set, at
    every height off the boundary, and on the boundary when the old
    target is at most the power limit. *)
Theorem PermittedDifficultyTransition_unchanged_bits
  (params : Params) (height old_nbits new_nbits interval : Z) :
  let ts := nPowTargetTimespan params in
  let limit := UintToArith256 (powLimit params) in
  (fPowAllowMinDifficultyBlocks params = true ->
   PermittedDifficultyTransition params height old_nbits old_nbits
   = Some true)
  /\ (fPowAllowMinDifficultyBlocks params = false ->
      DifficultyAdjustmentInterval params = Some interval ->
      interval <> 0 ->
      (Z.rem height interval <> 0 -> old_nbits <> new_nbits ->
       PermittedDifficultyTransition params height old_nbits new_nbits
       = Some false)
      /\ (Z.rem height interval <> 0 ->
          PermittedDifficultyTransition params height old_nbits old_nbits
          = Some true)
      /\ (Z.rem height interval = 0 ->
          0 < ts -> ts * 4 < 2 ^ 32 ->
          decode old_nbits * (ts * 4) < 2 ^ 256 ->
          decode old_nbits <= limit ->
          PermittedDifficultyTransition params height old_nbits old_nbits
          = Some true)).
Proof.
  intros ts limit. split.
  { intros Hset. unfold PermittedDifficultyTransition. rewrite Hset.
    reflexivity. }
  intros Hflag Hint Hi.
  assert (Hoff : forall new,
             Z.rem height interval <> 0 ->
             PermittedDifficultyTransition params height old_nbits new
             = if negb (old_nbits =? new) then Some false else Some true).
  { intros new Hrem. unfold PermittedDifficultyTransition.
    rewrite Hflag, Hint. unfold cpp_rem.
    destruct (Z.eqb_spec interval 0) as [|_]; [contradiction|].
    apply Z.eqb_neq in Hrem. rewrite Hrem. reflexivity. }
  split; [|split].
  - intros Hrem Hne. rewrite Hoff by exact Hrem.
    apply Z.eqb_neq in Hne. rewrite Hne. reflexivity.
  - intros Hrem. rewrite Hoff by exact Hrem.
    rewrite Z.eqb_refl. reflexivity.
  - intros Hrem Hts Hts4 Hfit Hle.
    destruct (PermittedDifficultyTransition_bounds params height
                old_nbits old_nbits interval Hflag Hint Hi Hrem Hts Hts4 Hfit)
      as (Emax & Emin & _ & Hiff & _).
    fold ts limit in Emax, Emin.
    apply Hiff. rewrite Emax, Emin.
    pose proof (decode_range old_nbits) as Hd.
    pose proof (UintToArith256_range (powLimit params)) as Hl.
    fold limit in Hl.
    assert (Hq : 0 <= Z.quot ts 4 <= ts).
    { rewrite Z.quot_div_nonneg by lia. split; [apply Z.div_pos; lia|].
      apply Z.div_le_upper_bound; lia. }
    split.
    + apply Z.le_trans
        with (Z.min (decode old_nbits * Z.quot ts 4 / ts) limit).
      * apply GetCompact_decode_le. split.
        -- apply Z.min_glb; [|lia]. apply Z.div_pos; [nia|lia].
        -- lia.
      * apply Z.le_trans with (decode old_nbits * Z.quot ts 4 / ts);
          [apply Z.le_min_l|].
        apply Z.div_le_upper_bound; [lia|]. nia.
    + apply GetCompact_decode_above. lia.
Qed.

Lemma PermittedDifficultyTransition_unchanged_bits_witness :
  PermittedDifficultyTransition legacy_params 2017 0x1c00ffff 0x1c00fffe
  = Some false
  /\ PermittedDifficultyTransition legacy_params 2016 0x1c00ffff 0x1c00ffff
     = Some true
  /\ PermittedDifficultyTransition flagged_params 2016 0x1e00ffff 0x1e00ffff
     = Some true.
Proof.
  destruct (PermittedDifficultyTransition_unchanged_bits legacy_params 2017
              0x1c00ffff 0x1c00fffe 2016) as (_ & Hclear).
  destruct Hclear as (Hreject & _ & _);
    [reflexivity | reflexivity | discriminate |].
  destruct (PermittedDifficultyTransition_unchanged_bits legacy_params 2016
              0x1c00ffff 0x1c00ffff 2016) as (_ & Hclear').
  destruct Hclear' as (_ & _ & Haccept);
    [reflexivity | reflexivity | discriminate |].
  destruct (PermittedDifficultyTransition_unchanged_bits flagged_params 2016
              0x1e00ffff 0x1e00ffff 2016) as (Hset & _).
  split; [|split].
  - apply Hreject; vm_compute; discriminate.
  - apply Haccept.
    + reflexivity.
    + reflexivity.
    + reflexivity.
    + vm_compute; reflexivity.
    + vm_compute; discriminate.
  - apply Hset. reflexivity.
Defined.

(** C5 as stated fails on the interval boundary: unchanged bits whose
    target lies above the power limit are rejected there. *)
Lemma PermittedDifficultyTransition_unchanged_rejected :
  fPowAllowMinDifficultyBlocks legacy_params = false
  /\ DifficultyAdjustmentInterval legacy_params = Some 2016
  /\ Z.rem 2016 2016 = 0
  /\ PermittedDifficultyTransition legacy_params 2016 0x1e00ffff 0x1e00ffff
     = Some false.
Proof. repeat split; vm_compute; reflexivity. Qed.

(** ** A period on schedule *)





(** ** Reference values *)

(** The encoder and the decoder on the values of the upstream unit
    tests of the compact form. *)
Example SetCompact_reference :
  SetCompact 0x01123456 = (0x12, false, false)
  /\ SetCompact 0x01fedcba = (0x7e, true, false)
  /\ SetCompact 0x04923456 = (0x12345600, true, false)
  /\ SetCompact 0x05009234 = (0x92340000, false, false)
  /\ SetCompact 0x20123456 = (0x1234560000000000000000000000000000000000000000000000000000000000, false, false)
  /\ SetCompact 0xff123456 = (0, false, true)
  /\ SetCompact 0x00923456 = (0, false, false).
Proof. repeat split; vm_compute; reflexivity. Qed.

Example GetCompact_reference :
  GetCompact 0 = 0
  /\ GetCompact 0x12 = 0x01120000
  /\ GetCompact 0x80 = 0x02008000
  /\ GetCompact 0x1234 = 0x02123400
  /\ GetCompact 0x123456 = 0x03123456
  /\ GetCompact 0x12345600 = 0x04123456
  /\ GetCompact 0x92340000 = 0x05009234
  /\ GetCompact (2 ^ 224 - 1) = 0x1d00ffff.
Proof. repeat split; vm_compute; reflexivity. Qed.

(** The first retarget of the upstream chain: block 32255 with bits
    [0x1d00ffff], its period begun at 1261130161. *)
Example CalculateNextWorkRequired_reference :
  CalculateNextWorkRequired
    (mkBlockIndex 32255 1262152739 0x1d00ffff None) 1261130161 legacy_params
  = Some 0x1d00d86a.
Proof. vm_compute; reflexivity. Qed.

(** The lower and the upper limit of the same rule, at blocks 68543 and
    46367 of the upstream chain. *)
Example CalculateNextWorkRequired_limits_reference :
  CalculateNextWorkRequired
    (mkBlockIndex 68543 1279297671 0x1c05a3f4 None) 1279008237 legacy_params
  = Some 0x1c0168fd
  /\ CalculateNextWorkRequired
       (mkBlockIndex 46367 1269211443 0x1c387f6f None) 1263163443 legacy_params
     = Some 0x1d00e1fd.
Proof. split; vm_compute; reflexivity. Qed.

(** * Further properties *)

(** ** More on the compact form *)

Lemma packed_size (c size : Z) :
  0 <= c < 2 ^ 23 -> 0 <= size ->
  Z.shiftr (Z.lor c (Z.shiftl size 24)) 24 = size.
Proof.
  intros Hc Hs. rewrite Z.shiftr_lor, Z.shiftr_shiftl_l by lia.
  rewrite Z.shiftr_div_pow2 by lia. rewrite Z.div_small by lia.
  rewrite Z.sub_diag. apply Z.shiftl_0_r.
Qed.

Lemma packed_mantissa (c size : Z) :
  0 <= c < 2 ^ 23 -> 0 <= size ->
  Z.land (Z.lor c (Z.shiftl size 24)) 0x007fffff = c.
Proof.
  intros Hc Hs. change 0x007fffff with (Z.ones 23).
  rewrite Z.land_lor_distr_l, !Z.land_ones by lia.
  rewrite Z.shiftl_mul_pow2 by lia.
  change (2 ^ 24) with (2 * 2 ^ 23). rewrite Z.mul_assoc.
  rewrite Z.mod_mul by lia. rewrite Z.lor_0_r.
  apply Z.mod_small. lia.
Qed.

Lemma packed_sign (c size : Z) :
  0 <= c < 2 ^ 23 -> 0 <= size ->
  Z.land (Z.lor c (Z.shiftl size 24)) 0x00800000 = 0.
Proof.
  intros Hc Hs. change 0x00800000 with (2 ^ 23).
  rewrite land_pow2 by lia.
  rewrite Z.lor_spec, Z.shiftl_spec_low by lia.
  rewrite orb_false_r.
  destruct (Z.eq_dec c 0) as [->|Hne]; [reflexivity|].
  rewrite Z.bits_above_log2; [reflexivity|lia|].
  apply Z.log2_lt_pow2; lia.
Qed.

(** What [GetCompact] returns: a mantissa below [2^23] under a size of at
    most 33 bytes, the mantissa below [2^16] at size 33. *)
Lemma GetCompact_parts (y : Z) :
  0 <= y < 2 ^ 256 ->
  exists c size,
    GetCompact y = Z.lor c (Z.shiftl size 24)
    /\ 0 <= c < 2 ^ 23 /\ 0 <= size <= 33 /\ (33 <= size -> c < 2 ^ 16).
Proof.
  intros Hy. destruct (Z.eq_dec y 0) as [->|Hne].
  { exists 0, 0. repeat split; try reflexivity; lia. }
  pose proof (byte_size_spec y ltac:(lia)) as (Hn & Hlo & Hhi).
  rewrite GetCompact_unfold. cbv zeta.
  remember ((bits y + 7) / 8) as n eqn:En. clear En.
  assert (Hc0 : exists c0,
             0 <= c0 < 2 ^ 24
             /\ (if n <=? 3
                 then to_uint32 (Z.shiftl (to_uint64 y) (8 * (3 - n)))
                 else to_uint32 (to_uint64 (Z.shiftr y (8 * (n - 3))))) = c0).
  { destruct (Z.leb_spec n 3) as [Hsmall|Hbig].
    - assert (Hy24 : y < 2 ^ 24).
      { apply Z.lt_le_trans with (2 ^ (8 * n)); [exact Hhi|].
        apply Z.pow_le_mono_r; lia. }
      assert (Ey : to_uint64 y = y)
        by (unfold to_uint64; apply Z.mod_small; lia).
      rewrite Ey, Z.shiftl_mul_pow2 by lia.
      assert (Hc : 0 <= y * 2 ^ (8 * (3 - n)) < 2 ^ 24).
      { assert (Hcases : n = 1 \/ n = 2 \/ n = 3) by lia.
        destruct Hcases as [-> | [-> | ->]];
          change (8 * (1 - 1)) with 0 in *; change (8 * (2 - 1)) with 8 in *;
          change (8 * (3 - 1)) with 16 in *; change (8 * 1) with 8 in *;
          change (8 * 2) with 16 in *; change (8 * 3) with 24 in *;
          change (8 * (3 - 2)) with 8; change (8 * (3 - 3)) with 0; lia. }
      exists (y * 2 ^ (8 * (3 - n))). split; [exact Hc|].
      unfold to_uint32. apply Z.mod_small. lia.
    - set (P := 2 ^ (8 * (n - 3))).
      assert (HP : 0 < P) by (apply Z.pow_pos_nonneg; lia).
      assert (E24 : 2 ^ (8 * n) = 2 ^ 24 * P).
      { unfold P. rewrite <- Z.pow_add_r by lia. f_equal. lia. }
      rewrite Z.shiftr_div_pow2 by lia. fold P.
      assert (Hc : 0 <= y / P < 2 ^ 24).
      { split; [apply Z.div_pos; lia|]. apply Z.div_lt_upper_bound; lia. }
      exists (y / P). split; [exact Hc|].
      unfold to_uint32, to_uint64.
      rewrite (Z.mod_small (y / P) (2 ^ 64)) by lia.
      apply Z.mod_small. lia. }
  destruct Hc0 as (c0 & Hc0 & ->).
  rewrite sign_bit_clear by exact Hc0.
  destruct (Z.ltb_spec c0 (2 ^ 23)).
  - exists c0, n. repeat split; lia.
  - exists (Z.shiftr c0 8), (n + 1).
    rewrite Z.shiftr_div_pow2 by lia.
    assert (0 <= c0 / 2 ^ 8 < 2 ^ 16).
    { split; [apply Z.div_pos; lia|]. apply Z.div_lt_upper_bound; lia. }
    repeat split; lia.
Qed.

(** Bits produced by [GetCompact] never carry the negative or the
    overflow flag. *)
Lemma GetCompact_flags (y : Z) :
  0 <= y < 2 ^ 256 ->
  isNegative (GetCompact y) = false /\ isOverflow (GetCompact y) = false.
Proof.
  intros Hy. destruct (GetCompact_parts y Hy) as (c & size & -> & Hc & Hs & H33).
  unfold isNegative, isOverflow, SetCompact. cbn [fst snd].
  rewrite packed_size, packed_mantissa, packed_sign by lia.
  split.
  - cbn [Z.eqb negb]. apply andb_false_r.
  - destruct (Z.leb_spec size 3) as [Hsmall|Hbig].
    + rewrite !Z.gtb_ltb.
      destruct (Z.ltb_spec 34 size); [lia|].
      destruct (Z.ltb_spec 33 size); [lia|].
      destruct (Z.ltb_spec 32 size); [lia|].
      rewrite ?andb_false_r; cbn [orb]; rewrite ?andb_false_r; reflexivity.
    + rewrite !Z.gtb_ltb.
      destruct (Z.ltb_spec 34 size); [lia|].
      destruct (Z.ltb_spec 33 size); [lia|].
      destruct (Z.ltb_spec 32 size) as [H32|H32].
      * destruct (Z.ltb_spec 65535 c); [lia|].
        rewrite ?andb_false_r; cbn [orb andb]; rewrite ?andb_false_r;
          reflexivity.
      * rewrite ?andb_false_r; cbn [orb]; rewrite ?andb_false_r; reflexivity.
Qed.


(** ** The power limit as an invariant of the chain *)

Lemma walk_to_in_range (limit : Z) (p q : CBlockIndex) (h : Z) :
  chain_in_range limit p -> walk_to p h = Some q ->
  bits_in_range limit (nBits q).
Proof.
  induction p as [hp t b|hp t b p' IH] using CBlockIndex_parent_ind;
    simpl; intros [Hb Hrest] E.
  - destruct (hp =? h); [|discriminate]. injection E as <-. exact Hb.
  - destruct (hp =? h).
    + injection E as <-. exact Hb.
    + apply IH; assumption.
Qed.

Lemma GetAncestor_in_range (limit : Z) (p q : CBlockIndex) (h : Z) :
  chain_in_range limit p -> GetAncestor p h = Some q ->
  bits_in_range limit (nBits q).
Proof.
  unfold GetAncestor. intros Hp E.
  destruct ((h >? nHeight p) || (h <? 0)); [discriminate|].
  eapply walk_to_in_range; eassumption.
Qed.

Lemma skip_min_difficulty_in_range (limit interval bound : Z) (p : CBlockIndex) :
  chain_in_range limit p ->
  bits_in_range limit (nBits (skip_min_difficulty interval bound p)).
Proof.
  induction p as [hp t b|hp t b q IH] using CBlockIndex_parent_ind;
    simpl; intros [Hb Hrest].
  - exact Hb.
  - destruct (negb (Z.rem hp interval =? 0) && (b =? bound)).
    + apply IH. exact Hrest.
    + exact Hb.
Qed.

Lemma GetCompact_in_range (limit y : Z) :
  0 <= y <= limit -> limit < 2 ^ 256 -> bits_in_range limit (GetCompact y).
Proof.
  intros Hy Hl. destruct (GetCompact_flags y ltac:(lia)) as [Hn Ho].
  pose proof (GetCompact_decode_le y ltac:(lia)).
  repeat split; [exact Hn|exact Ho|lia].
Qed.

Lemma div_nonneg (a b q : Z) : 0 <= a -> div a b = Some q -> 0 <= q.
Proof.
  unfold div, to_uint64. intros Ha E.
  destruct (Z.eqb_spec (b mod 2 ^ 64) 0); [discriminate|].
  injection E as <-.
  pose proof (Z.mod_pos_bound b (2 ^ 64) ltac:(lia)).
  apply Z.div_pos; lia.
Qed.

Lemma mul_range (a b : Z) : 0 <= mul a b < 2 ^ 256.
Proof. apply wrap_range. Qed.

Lemma tightening_below (prev : Z) : 0 <= prev -> mul prev 2 / 3 <= prev.
Proof.
  intros Hp. unfold mul, wrap, modulus, to_uint32.
  change (2 mod 2 ^ 32) with 2.
  pose proof (Z.mod_le (prev * 2) (2 ^ 256) ltac:(lia) ltac:(lia)).
  apply Z.div_le_upper_bound; lia.
Qed.

Lemma lwma_loop_sum_nonneg (fuel : nat) (p : CBlockIndex) (T height : Z)
  (st st' : LoopState) :
  0 <= ls_sumTarget st ->
  lwma_loop fuel p T height st = Some st' -> 0 <= ls_sumTarget st'.
Proof.
  revert st. induction fuel as [|fuel IH]; intros st H0; cbn [lwma_loop].
  - destruct (ls_i st <=? height); [discriminate|].
    intros E; injection E as <-. exact H0.
  - destruct (ls_i st <=? height).
    + unfold lwma_body. destruct (GetAncestor p (ls_i st)); [|discriminate].
      apply IH. cbn [ls_sumTarget]. apply wrap_range.
    + intros E; injection E as <-. exact H0.
Qed.

Lemma limitNextTarget_range (next limit easing tightening : Z) :
  0 <= next -> 0 <= limit -> 0 <= easing -> 0 <= tightening <= limit ->
  0 <= limitNextTarget next limit easing tightening <= limit.
Proof.
  intros Hn Hl He Ht. unfold limitNextTarget. rewrite !Z.gtb_ltb.
  destruct (Z.ltb_spec limit next); [lia|].
  destruct (Z.ltb_spec easing next); [lia|].
  destruct (Z.ltb_spec next tightening); lia.
Qed.

Lemma DeriveTarget_in_range (limit : uint256) (c : Z) :
  bits_in_range (UintToArith256 limit) c -> decode c <> 0 ->
  DeriveTarget c limit = Some (decode c).
Proof.
  intros (Hn & Ho & Hle) Hz. rewrite DeriveTarget_spec, Hn, Ho.
  apply Z.eqb_neq in Hz. rewrite Hz. rewrite Z.gtb_ltb.
  destruct (Z.ltb_spec (UintToArith256 limit) (decode c)); [lia|reflexivity].
Qed.

(** X1: the power limit is kept along the chain.  When every block of
    the chain carries bits that decode, unflagged, to at most the power
    limit, so do the bits [GetNextWorkRequired] returns, in every era and
    under every flag; unless they decode to zero, [DeriveTarget] accepts
    them. *)
Theorem GetNextWorkRequired_keeps_range
  (pIndexLast : CBlockIndex) (pBlock : CBlockHeader) (params : Params) (c : Z) :
  let limit := UintToArith256 (powLimit params) in
  chain_in_range limit pIndexLast ->
  GetNextWorkRequired pIndexLast pBlock params = Some c ->
  bits_in_range limit c
  /\ (decode c <> 0 -> DeriveTarget c (powLimit params) = Some (decode c)).
Proof.
  intros limit Hchain E.
  pose proof (UintToArith256_range (powLimit params)) as Hl. fold limit in Hl.
  assert (Hlast : bits_in_range limit (nBits pIndexLast)).
  { destruct pIndexLast as [h t b o]. exact (proj1 Hchain). }
  assert (R : bits_in_range limit c);
    [|split; [exact R|apply DeriveTarget_in_range; exact R]].
  unfold GetNextWorkRequired in E. fold limit in E.
  destruct (nHeight pIndexLast + 1 <? nLWMAAveragingWindow params).
  { injection E as <-. apply GetCompact_in_range; lia. }
  destruct (nHeight pIndexLast <? switchLWMAblock params).
  - unfold BitcoinGetNextWorkRequired in E. fold limit in E.
    destruct (DifficultyAdjustmentInterval params) as [interval|];
      [|discriminate].
    destruct (cpp_rem (nHeight pIndexLast + 1) interval) as [r|];
      [|discriminate].
    destruct (negb (r =? 0)).
    + destruct (fPowAllowMinDifficultyBlocks params).
      * destruct (HeaderGetBlockTime pBlock >? _).
        -- injection E as <-. apply GetCompact_in_range; lia.
        -- injection E as <-. apply skip_min_difficulty_in_range.
           exact Hchain.
      * injection E as <-. exact Hlast.
    + destruct (_ <? 0); [discriminate|].
      destruct (GetAncestor pIndexLast _) as [first|]; [|discriminate].
      unfold CalculateNextWorkRequired in E. fold limit in E.
      destruct (fPowNoRetargeting params).
      { injection E as <-. exact Hlast. }
      destruct (retargetBase pIndexLast params) as [base|]; [|discriminate].
      destruct (div _ (nPowTargetTimespan params)) as [bnNew|] eqn:Ed;
        [|discriminate].
      injection E as <-.
      pose proof (div_nonneg _ _ _ (proj1 (mul_range _ _)) Ed) as Hq.
      rewrite Z.gtb_ltb.
      destruct (Z.ltb_spec limit bnNew); apply GetCompact_in_range; lia.
  - destruct (div (mul (decode (nBits pIndexLast)) 6) 5) as [easing|] eqn:Ee;
      [|discriminate].
    destruct (div (mul (decode (nBits pIndexLast)) 2) 3) as [tightening|] eqn:Et;
      [|discriminate].
    destruct (lwmaSumTarget pIndexLast params) as [sumTarget|] eqn:Es;
      [|discriminate].
    destruct (div sumTarget _) as [next|] eqn:En; [|discriminate].
    injection E as <-.
    pose proof (div_nonneg _ _ _ (proj1 (mul_range _ _)) Ee) as He0.
    pose proof (div_nonneg _ _ _ (proj1 (mul_range _ _)) Et) as Ht0.
    assert (Hs0 : 0 <= sumTarget).
    { unfold lwmaSumTarget in Es.
      destruct (GetAncestor pIndexLast _) as [first|]; [|discriminate].
      destruct (lwma_loop _ _ _ _ _) as [st|] eqn:El; [|discriminate].
      injection Es as <-. eapply lwma_loop_sum_nonneg; [|exact El].
      simpl. lia. }
    pose proof (div_nonneg _ _ _ Hs0 En) as Hn0.
    assert (Htl : tightening <= limit).
    { unfold div in Et. change (to_uint64 3) with 3 in Et.
      cbn [Z.eqb] in Et. injection Et as <-.
      pose proof (tightening_below (decode (nBits pIndexLast))
                    (proj1 (decode_range _))).
      destruct Hlast as (_ & _ & Hle). lia. }
    apply GetCompact_in_range; [|lia].
    apply limitNextTarget_range; lia.
Qed.

Lemma GetNextWorkRequired_keeps_range_witness :
  bits_in_range (UintToArith256 (powLimit lwma_params)) 0x1d00ffff
  /\ (decode 0x1d00ffff <> 0 ->
      DeriveTarget 0x1d00ffff (powLimit lwma_params) = Some (decode 0x1d00ffff)).
Proof.
  apply (GetNextWorkRequired_keeps_range slow_tip {| hdr_nTime := 2160 |}
           lwma_params 0x1d00ffff).
  - vm_compute. repeat split; try reflexivity; discriminate.
  - vm_compute; reflexivity.
Defined.

(** ** No failing step on a well-formed chain *)






(** ** The validator against the legacy retarget *)

Lemma Some_inj {A : Type} (x y : A) : Some x = Some y -> x = y.
Proof. intros E. congruence. Qed.

Lemma product_fits (base c bound : Z) :
  0 <= base -> c <= bound -> base * bound < 2 ^ 256 -> base * c < 2 ^ 256.
Proof.
  intros Hb Hc Hfit. apply Z.le_lt_trans with (base * bound); [|exact Hfit].
  apply Z.mul_le_mono_nonneg_l; assumption.
Qed.









(** X4: on the boundary, with allow-min-difficulty clear, the validator
    never accepts a new target above four times the old target, nor one
    above the power limit. *)
Theorem PermittedDifficultyTransition_rejects_easing_beyond
  (params : Params) (height old_nbits new_nbits interval : Z) :
  let ts := nPowTargetTimespan params in
  let limit := UintToArith256 (powLimit params) in
  fPowAllowMinDifficultyBlocks params = false ->
  DifficultyAdjustmentInterval params = Some interval ->
  interval <> 0 ->
  Z.rem height interval = 0 ->
  0 < ts -> ts * 4 < 2 ^ 32 ->
  decode old_nbits * (ts * 4) < 2 ^ 256 ->
  decode old_nbits * 4 < decode new_nbits \/ limit < decode new_nbits ->
  PermittedDifficultyTransition params height old_nbits new_nbits
  = Some false.
Proof.
  intros ts limit Hflag Hint Hi Hrem Hts Hts4 Hfit Hbig.
  destruct (PermittedDifficultyTransition_bounds params height old_nbits
              new_nbits interval Hflag Hint Hi Hrem Hts Hts4 Hfit)
    as (Emax & _ & _ & _ & Hiff).
  fold ts limit in Emax. apply Hiff. rewrite Emax.
  pose proof (decode_range old_nbits) as Hd.
  pose proof (UintToArith256_range (powLimit params)) as Hl. fold limit in Hl.
  pose proof (GetCompact_decode_le (Z.min (decode old_nbits * 4) limit)
                ltac:(lia)).
  lia.
Qed.

Lemma PermittedDifficultyTransition_rejects_easing_beyond_witness :
  PermittedDifficultyTransition legacy_params 2016 0x1c00ffff 0x1c040000
  = Some false.
Proof.
  apply (PermittedDifficultyTransition_rejects_easing_beyond legacy_params
           2016 0x1c00ffff 0x1c040000 2016).
  - reflexivity.
  - reflexivity.
  - discriminate.
  - reflexivity.
  - reflexivity.
  - reflexivity.
  - vm_compute; reflexivity.
  - left. vm_compute; reflexivity.
Defined.



(** ** The moving average against the previous target *)

Lemma lwmaSumTarget_nonneg (p : CBlockIndex) (params : Params) (sumTarget : Z) :
  lwmaSumTarget p params = Some sumTarget -> 0 <= sumTarget.
Proof.
  unfold lwmaSumTarget. intros Es.
  destruct (GetAncestor p _) as [first|]; [|discriminate].
  destruct (lwma_loop _ _ _ _ _) as [st|] eqn:El; [|discriminate].
  apply Some_inj in Es. subst sumTarget.
  eapply lwma_loop_sum_nonneg; [|exact El]. simpl. lia.
Qed.






(** ** The legacy rule off the interval boundary *)

(** X8: in the legacy era, past the bootstrap guard and off the interval
    boundary, the bits change only under the min-difficulty rule: with
    allow-min-difficulty clear the next bits are the previous block's
    bits, and with it set a block more than twice the target spacing
    after its parent gets the compact power limit. *)
Theorem GetNextWorkRequired_off_boundary
  (pIndexLast : CBlockIndex) (pBlock : CBlockHeader) (params : Params)
  (interval : Z) :
  let height := nHeight pIndexLast in
  nLWMAAveragingWindow params <= height + 1 ->
  height < switchLWMAblock params ->
  DifficultyAdjustmentInterval params = Some interval ->
  interval <> 0 ->
  Z.rem (height + 1) interval <> 0 ->
  (fPowAllowMinDifficultyBlocks params = false ->
   GetNextWorkRequired pIndexLast pBlock params = Some (nBits pIndexLast))
  /\ (fPowAllowMinDifficultyBlocks params = true ->
      GetBlockTime pIndexLast + nPowTargetSpacing params * 2
      < HeaderGetBlockTime pBlock ->
      GetNextWorkRequired pIndexLast pBlock params
      = Some (GetCompact (UintToArith256 (powLimit params)))).
Proof.
  intros height HN Hsw Hint Hi Hrem.
  assert (E : GetNextWorkRequired pIndexLast pBlock params
              = BitcoinGetNextWorkRequired pIndexLast pBlock params).
  { unfold GetNextWorkRequired. fold height.
    destruct (Z.ltb_spec (height + 1) (nLWMAAveragingWindow params)); [lia|].
    destruct (Z.ltb_spec height (switchLWMAblock params)); [|lia].
    reflexivity. }
  rewrite E. unfold BitcoinGetNextWorkRequired. rewrite Hint. unfold cpp_rem.
  destruct (Z.eqb_spec interval 0); [contradiction|]. fold height.
  apply Z.eqb_neq in Hrem. rewrite Hrem. cbn [negb].
  split; intros Hflag; rewrite Hflag; [reflexivity|].
  intros Hlate. rewrite Z.gtb_ltb.
  destruct (Z.ltb_spec (GetBlockTime pIndexLast + nPowTargetSpacing params * 2)
              (HeaderGetBlockTime pBlock)); [reflexivity|lia].
Qed.

Lemma GetNextWorkRequired_off_boundary_witness :
  GetNextWorkRequired testnet_tip {| hdr_nTime := 7201 |} testnet_params
  = Some (GetCompact (UintToArith256 (powLimit testnet_params))).
Proof.
  refine (proj2 (GetNextWorkRequired_off_boundary testnet_tip
                   {| hdr_nTime := 7201 |} testnet_params 4 _ _ _ _ _) _ _).
  - vm_compute; discriminate.
  - reflexivity.
  - reflexivity.
  - discriminate.
  - vm_compute; discriminate.
  - reflexivity.
  - reflexivity.
Defined.

(** ** The moving average on a chain exactly on schedule *)

Lemma triangle_double (j : Z) : 2 * (j * (j + 1) / 2) = j * (j + 1).
Proof.
  destruct (Z.Even_or_Odd j) as [[m ->]|[m ->]].
  - replace (2 * m * (2 * m + 1)) with (m * (2 * m + 1) * 2) by ring.
    rewrite Z.div_mul by lia. ring.
  - replace ((2 * m + 1) * (2 * m + 1 + 1)) with ((2 * m + 1) * (m + 1) * 2)
      by ring.
    rewrite Z.div_mul by lia. ring.
Qed.

Lemma triangle_succ (j : Z) :
  (j + 1) * (j + 1 + 1) / 2 = j * (j + 1) / 2 + (j + 1).
Proof.
  pose proof (triangle_double j). pose proof (triangle_double (j + 1)). lia.
Qed.

Lemma triangle_mono (a b : Z) :
  0 <= a <= b -> a * (a + 1) / 2 <= b * (b + 1) / 2.
Proof.
  intros H. apply Z.div_le_mono; [lia|]. nia.
Qed.

Lemma clampSolveTime_one (T : Z) : 1 <= T -> 1 <= clampSolveTime T 1 <= T.
Proof.
  intros HT. unfold clampSolveTime. rewrite Z.gtb_ltb.
  assert (Z.quot T 6 <= T).
  { rewrite Z.quot_div_nonneg by lia. apply Z.div_le_upper_bound; lia. }
  destruct (Z.ltb_spec 1 (Z.quot T 6)); [lia|].
  destruct (Z.ltb_spec (6 * T) 1); lia.
Qed.

Lemma clampSolveTime_inside (T s : Z) :
  2 <= T -> T - 1 <= s <= T -> clampSolveTime T s = s.
Proof.
  intros HT Hs. unfold clampSolveTime. rewrite Z.gtb_ltb.
  assert (Z.quot T 6 <= T - 1).
  { rewrite Z.quot_div_nonneg by lia.
    pose proof (Z.div_le_upper_bound T 6 (T - 1) ltac:(lia)). lia. }
  destruct (Z.ltb_spec s (Z.quot T 6)); [lia|].
  destruct (Z.ltb_spec (6 * T) s); lia.
Qed.

(** The sum of solve time times weight grows by the clamped solve time
    of the next pass times its weight. *)
Lemma steadyWeighted_succ (T j : Z) :
  2 <= T -> 0 <= j ->
  steadyWeighted T (j + 1)
  = steadyWeighted T j
    + clampSolveTime T
        (thisTimestamp (j * T) (steadyPrevious 0 T j) - steadyPrevious 0 T j)
      * (j + 1)
  /\ thisTimestamp (j * T) (steadyPrevious 0 T j) = steadyPrevious 0 T (j + 1).
Proof.
  intros HT Hj.
  assert (Hcases : j = 0 \/ j = 1 \/ 2 <= j) by lia.
  destruct Hcases as [-> | [-> | H2]].
  - change (0 + 1) with 1.
    change (steadyWeighted T 1) with (clampSolveTime T 1).
    change (steadyWeighted T 0) with 0.
    change (steadyPrevious 0 T 0) with 0.
    change (steadyPrevious 0 T 1) with (0 + 1).
    change (0 * T) with 0. change (thisTimestamp 0 0) with 1.
    change (1 - 0) with 1. split; [ring|reflexivity].
  - change (1 + 1) with 2.
    change (steadyWeighted T 2)
      with (clampSolveTime T 1 + 2 * (T - 1) + T * (2 * (2 + 1) / 2 - 3)).
    change (steadyWeighted T 1) with (clampSolveTime T 1).
    change (steadyPrevious 0 T 1) with (0 + 1).
    change (steadyPrevious 0 T 2) with (0 + (2 - 1) * T).
    change (2 * (2 + 1) / 2) with 3.
    rewrite Z.mul_1_l. unfold thisTimestamp. rewrite Z.gtb_ltb.
    destruct (Z.ltb_spec (0 + 1) T); [|lia].
    rewrite (clampSolveTime_inside T (T - (0 + 1))) by lia.
    split; ring.
  - unfold steadyWeighted, steadyPrevious, thisTimestamp.
    rewrite Z.gtb_ltb.
    destruct (Z.eqb_spec j 0); [lia|].
    destruct (Z.eqb_spec j 1); [lia|].
    destruct (Z.eqb_spec (j + 1) 0); [lia|].
    destruct (Z.eqb_spec (j + 1) 1); [lia|].
    assert (Hlt : 0 + (j - 1) * T < j * T) by nia.
    destruct (Z.ltb_spec (0 + (j - 1) * T) (j * T)); [|lia].
    replace (j * T - (0 + (j - 1) * T)) with T by ring.
    rewrite (clampSolveTime_inside T T) by lia.
    rewrite triangle_succ. split; ring.
Qed.

Lemma steadyWeighted_bounds (T j : Z) :
  2 <= T -> 0 <= j ->
  0 <= steadyWeighted T j <= T * (j * (j + 1) / 2).
Proof.
  intros HT Hj. unfold steadyWeighted.
  pose proof (clampSolveTime_one T ltac:(lia)) as Hc.
  destruct (Z.eqb_spec j 0) as [->|Hj0]; [cbn; lia|].
  destruct (Z.eqb_spec j 1) as [->|Hj1].
  - change (1 * (1 + 1) / 2) with 1. lia.
  - pose proof (triangle_mono 2 j ltac:(lia)) as Hm.
    change (2 * (2 + 1) / 2) with 3 in Hm. nia.
Qed.

Lemma steadyWeighted_mono (T j n : Z) :
  2 <= T -> 0 <= j <= n -> steadyWeighted T j <= T * (n * (n + 1) / 2).
Proof.
  intros HT Hj.
  pose proof (steadyWeighted_bounds T j HT ltac:(lia)).
  pose proof (triangle_mono j n Hj). nia.
Qed.

Lemma walk_to_steady (T bits : Z) (p q : CBlockIndex) (i : Z) :
  wf_chain p -> spaced_by T p -> all_bits bits p ->
  walk_to p i = Some q ->
  nBits q = bits
  /\ GetBlockTime q = GetBlockTime p - (nHeight p - i) * T.
Proof.
  induction p as [h t b|h t b p' IH] using CBlockIndex_parent_ind;
    simpl; intros Hwf Hsp Hb E.
  - destruct (Z.eqb_spec h i); [|discriminate].
    apply Some_inj in E. subst q. cbn. split; [tauto|]. unfold GetBlockTime.
    cbn. lia.
  - destruct Hwf as [Hh Hwf]. destruct Hsp as [Ht Hsp].
    destruct Hb as [Hb Hbs].
    destruct (Z.eqb_spec h i).
    + apply Some_inj in E. subst q. cbn. split; [exact Hb|].
      unfold GetBlockTime. cbn. lia.
    + destruct (IH Hwf Hsp Hbs E) as [Eb Et]. split; [exact Eb|].
      rewrite Et. unfold GetBlockTime in *. cbn in *. rewrite Hh. lia.
Qed.

Lemma GetAncestor_steady (T bits : Z) (p : CBlockIndex) (i : Z) :
  wf_chain p -> spaced_by T p -> all_bits bits p ->
  0 <= i <= nHeight p ->
  exists q, GetAncestor p i = Some q
            /\ nBits q = bits
            /\ GetBlockTime q = GetBlockTime p - (nHeight p - i) * T.
Proof.
  intros Hwf Hsp Hb Hi.
  destruct (GetAncestor_wf p i Hwf Hi) as (q & E & _).
  exists q. split; [exact E|].
  unfold GetAncestor in E.
  destruct ((i >? nHeight p) || (i <? 0)); [discriminate|].
  eapply walk_to_steady; eassumption.
Qed.

Lemma steadyPrevious_shift (t0 T j : Z) :
  steadyPrevious t0 T j = t0 + steadyPrevious 0 T j.
Proof.
  unfold steadyPrevious. destruct (j =? 0); [lia|]. destruct (j =? 1); lia.
Qed.

Lemma thisTimestamp_shift (t0 a b : Z) :
  thisTimestamp (t0 + a) (t0 + b) = t0 + thisTimestamp a b.
Proof.
  unfold thisTimestamp. rewrite !Z.gtb_ltb.
  destruct (Z.ltb_spec (t0 + b) (t0 + a)); destruct (Z.ltb_spec b a); lia.
Qed.

Lemma steady_solve_range (T j : Z) :
  2 <= T -> 0 <= j ->
  0 <= clampSolveTime T
         (thisTimestamp (j * T) (steadyPrevious 0 T j) - steadyPrevious 0 T j)
  <= T.
Proof.
  intros HT Hj.
  assert (Hcases : j = 0 \/ j = 1 \/ 2 <= j) by lia.
  destruct Hcases as [-> | [-> | H2]].
  - change (steadyPrevious 0 T 0) with 0. change (0 * T) with 0.
    change (thisTimestamp 0 0 - 0) with 1.
    pose proof (clampSolveTime_one T ltac:(lia)). lia.
  - change (steadyPrevious 0 T 1) with (0 + 1).
    rewrite Z.mul_1_l. unfold thisTimestamp. rewrite Z.gtb_ltb.
    destruct (Z.ltb_spec (0 + 1) T); [|lia].
    rewrite (clampSolveTime_inside T (T - (0 + 1))) by lia. lia.
  - unfold steadyPrevious, thisTimestamp. rewrite Z.gtb_ltb.
    destruct (Z.eqb_spec j 0); [lia|]. destruct (Z.eqb_spec j 1); [lia|].
    assert (Hlt : 0 + (j - 1) * T < j * T) by nia.
    destruct (Z.ltb_spec (0 + (j - 1) * T) (j * T)); [|lia].
    replace (j * T - (0 + (j - 1) * T)) with T by ring.
    rewrite (clampSolveTime_inside T T) by lia. lia.
Qed.

Lemma steady_fits (t s w c c' bound M : Z) :
  0 <= t -> 0 <= s -> 1 <= w -> 0 <= c -> c' = c + s * w ->
  c' <= bound -> t * bound < M ->
  t * s < M /\ t * s * w < M /\ t * c + t * s * w = t * c' /\ t * c' < M.
Proof.
  intros Ht Hs Hw Hc -> Hb Hfit.
  assert (H1 : t * s <= t * (s * w)).
  { apply Z.mul_le_mono_nonneg_l; [exact Ht|]. nia. }
  assert (H2 : t * (s * w) <= t * (c + s * w)).
  { apply Z.mul_le_mono_nonneg_l; [exact Ht|]. lia. }
  assert (H3 : t * (c + s * w) <= t * bound).
  { apply Z.mul_le_mono_nonneg_l; [exact Ht|]. exact Hb. }
  replace (t * s * w) with (t * (s * w)) by ring.
  repeat split; lia.
Qed.

(** The loop on a window exactly on schedule, pass by pass. *)
Lemma lwma_iter_steady (p : CBlockIndex) (T N bits : Z) (j : nat) :
  wf_chain p -> spaced_by T p -> all_bits bits p ->
  2 <= T < 2 ^ 32 -> 0 < N <= nHeight p + 1 -> N < 2 ^ 32 ->
  decode bits * (T * (N * (N + 1) / 2)) < 2 ^ 256 ->
  Z.of_nat j <= N ->
  exists st,
    lwma_iter j p T
      (lwma_start (nHeight p) N (GetBlockTime p - (N - 1) * T)) = Some st
    /\ ls_i st = nHeight p - N + 1 + Z.of_nat j
    /\ ls_weight st = 1 + Z.of_nat j
    /\ ls_previousTimestamp st
       = steadyPrevious (GetBlockTime p - (N - 1) * T) T (Z.of_nat j)
    /\ ls_sumTarget st = decode bits * steadyWeighted T (Z.of_nat j).
Proof.
  intros Hwf Hsp Hb HT HN HN32 Hfit.
  set (t0 := GetBlockTime p - (N - 1) * T).
  induction j as [|j IH]; intros Hj.
  - eexists. split; [reflexivity|]. cbn [lwma_start ls_i ls_weight
      ls_previousTimestamp ls_sumTarget Z.of_nat].
    change (steadyWeighted T 0) with 0.
    change (steadyPrevious t0 T 0) with t0. repeat split; lia.
  - destruct IH as (st & E & Hi & Hw & Hp & Hs); [lia|].
    rewrite lwma_iter_snoc, E.
    destruct (GetAncestor_steady T bits p (ls_i st) Hwf Hsp Hb ltac:(lia))
      as (q & Eq & Ebits & Etime).
    unfold lwma_body. rewrite Eq. eexists. split; [reflexivity|].
    cbn [ls_i ls_weight ls_previousTimestamp ls_sumTarget].
    rewrite Nat2Z.inj_succ. unfold Z.succ.
    set (jz := Z.of_nat j) in *.
    assert (Etime' : GetBlockTime q = t0 + jz * T).
    { rewrite Etime, Hi. unfold t0. ring. }
    rewrite Etime', Hp, Hw, Hs, Ebits.
    rewrite (steadyPrevious_shift t0 T jz), thisTimestamp_shift.
    destruct (steadyWeighted_succ T jz ltac:(lia) ltac:(lia)) as [Esum Eprev].
    pose proof (steady_solve_range T jz ltac:(lia) ltac:(lia)) as Hsolve.
    rewrite Eprev in *.
    replace (t0 + steadyPrevious 0 T (jz + 1)
             - (t0 + steadyPrevious 0 T jz))
      with (steadyPrevious 0 T (jz + 1) - steadyPrevious 0 T jz) by ring.
    set (s := clampSolveTime T
                (steadyPrevious 0 T (jz + 1) - steadyPrevious 0 T jz)) in *.
    split; [lia|]. split; [lia|].
    split; [symmetry; apply steadyPrevious_shift|].
    pose proof (decode_range bits) as Hd.
    pose proof (steadyWeighted_bounds T jz ltac:(lia) ltac:(lia)) as Hc.
    pose proof (steadyWeighted_mono T (jz + 1) N ltac:(lia) ltac:(lia)) as Hm.
    replace (1 + jz) with (jz + 1) by ring.
    destruct (steady_fits (decode bits) s (jz + 1) (steadyWeighted T jz)
                (steadyWeighted T (jz + 1)) (T * (N * (N + 1) / 2)) (2 ^ 256)
                ltac:(lia) ltac:(lia) ltac:(lia) ltac:(lia) Esum Hm Hfit)
      as (F1 & F2 & F3 & F4).
    rewrite (mul_exact (decode bits) s) by lia.
    rewrite (mul_exact (decode bits * s) (jz + 1));
      [| apply Z.mul_nonneg_nonneg; lia | lia | exact F2].
    unfold add. rewrite F3. apply wrap_small.
    split; [apply Z.mul_nonneg_nonneg; lia|exact F4].
Qed.

Lemma steady_window_constants (N T : Z) :
  2 <= N -> 2 <= T ->
  Z.quot (N * (N + 1) * T) 2 = T * (N * (N + 1) / 2)
  /\ steadyWeighted T N
     = Z.quot (N * (N + 1) * T) 2 - T - 2 + clampSolveTime T 1
  /\ 6 <= T * (N * (N + 1) / 2).
Proof.
  intros HN HT.
  assert (Ek : Z.quot (N * (N + 1) * T) 2 = T * (N * (N + 1) / 2)).
  { rewrite Z.quot_div_nonneg by nia.
    pose proof (triangle_double N) as Hd.
    replace (N * (N + 1) * T) with (T * (N * (N + 1) / 2) * 2) by lia.
    apply Z.div_mul. lia. }
  split; [exact Ek|]. split.
  - rewrite Ek. unfold steadyWeighted.
    destruct (Z.eqb_spec N 0); [lia|]. destruct (Z.eqb_spec N 1); [lia|]. ring.
  - pose proof (triangle_mono 2 N ltac:(lia)) as Hm.
    change (2 * (2 + 1) / 2) with 3 in Hm. nia.
Qed.

(** X9: on schedule, the moving average still tightens.  Past the
    switch height, on a chain whose blocks all carry the same bits and
    follow their parents by exactly the target spacing, the weighted sum
    over the window is the common target times [k - T - 2 + s], with [s]
    the limited solve time of one second, and the target decoded from the
    returned bits is strictly below the common target. *)
Theorem GetNextWorkRequired_on_schedule_tightens
  (pIndexLast : CBlockIndex) (pBlock : CBlockHeader) (params : Params) :
  let height := nHeight pIndexLast in
  let N := nLWMAAveragingWindow params in
  let T := nPowTargetSpacing params in
  let k := Z.quot (N * (N + 1) * T) 2 in
  let target := decode (nBits pIndexLast) in
  wf_chain pIndexLast ->
  spaced_by T pIndexLast ->
  all_bits (nBits pIndexLast) pIndexLast ->
  switchLWMAblock params <= height ->
  2 <= N <= height + 1 ->
  2 <= T < 2 ^ 32 ->
  N * (N + 1) * T < 2 ^ 63 ->
  0 < target <= UintToArith256 (powLimit params) ->
  target * k < 2 ^ 256 ->
  lwmaSumTarget pIndexLast params
  = Some (target * (k - T - 2 + clampSolveTime T 1))
  /\ exists c,
       GetNextWorkRequired pIndexLast pBlock params = Some c
       /\ decode c < target.
Proof.
  intros height N T k target Hwf Hsp Hb Hsw HN HT Hk63 Ht Hfit.
  subst height N T k target.
  set (height := nHeight pIndexLast) in *.
  set (N := nLWMAAveragingWindow params) in *.
  set (T := nPowTargetSpacing params) in *.
  set (target := decode (nBits pIndexLast)) in *.
  set (limit := UintToArith256 (powLimit params)) in *.
  destruct (steady_window_constants N T ltac:(lia) ltac:(lia))
    as (Ek & Ec & Hk6).
  set (k := Z.quot (N * (N + 1) * T) 2) in *.
  assert (HN32 : N < 2 ^ 32).
  { destruct (Z.lt_ge_cases N (2 ^ 32)) as [|Hbig]; [assumption|].
    assert (2 ^ 32 * 2 ^ 32 <= N * N) by (apply Z.mul_le_mono_nonneg; lia).
    assert (N * N <= N * (N + 1) * T) by nia.
    change (2 ^ 32 * 2 ^ 32) with (2 ^ 64) in *. lia. }
  assert (Hk64 : 0 < k < 2 ^ 64).
  { split; [rewrite Ek; lia|]. unfold k.
    rewrite Z.quot_div_nonneg by nia. apply Z.div_lt_upper_bound; lia. }
  rewrite Ek in Hfit.
  assert (Esum : lwmaSumTarget pIndexLast params
                 = Some (target * steadyWeighted T N)).
  { unfold lwmaSumTarget. fold height N T.
    destruct (GetAncestor_steady T (nBits pIndexLast) pIndexLast
                (height - N + 1) Hwf Hsp Hb ltac:(lia))
      as (first & Ef & _ & Etime).
    rewrite Ef. rewrite lwma_loop_iter by (cbn [lwma_start ls_i]; lia).
    replace (GetBlockTime first) with (GetBlockTime pIndexLast - (N - 1) * T)
      by (rewrite Etime; fold height; ring).
    destruct (lwma_iter_steady pIndexLast T N (nBits pIndexLast) (Z.to_nat N)
                Hwf Hsp Hb HT ltac:(fold height; lia) HN32 Hfit ltac:(lia))
      as (st & E & _ & _ & _ & Hs).
    fold height in E. rewrite E. rewrite Hs. fold target.
    rewrite Z2Nat.id by lia. reflexivity. }
  rewrite <- Ec. split; [exact Esum|].
  pose proof (clampSolveTime_one T ltac:(lia)) as Hc1.
  pose proof (steadyWeighted_bounds T N ltac:(lia) ltac:(lia)) as Hw.
  assert (Hless : target * steadyWeighted T N < target * k).
  { apply Z.mul_lt_mono_pos_l; [lia|]. rewrite Ec. lia. }
  assert (Hnext : 0 <= target * steadyWeighted T N / k < target).
  { split; [apply Z.div_pos; [apply Z.mul_nonneg_nonneg; lia|lia]|].
    apply Z.div_lt_upper_bound; [lia|]. rewrite (Z.mul_comm k). exact Hless. }
  assert (Hfit6 : target * 6 < 2 ^ 256).
  { apply (product_fits target 6 (T * (N * (N + 1) / 2))); [lia|lia|exact Hfit]. }
  pose proof (UintToArith256_range (powLimit params)) as Hl. fold limit in Hl.
  unfold GetNextWorkRequired. fold height N T target limit k.
  destruct (Z.ltb_spec (height + 1) N); [lia|].
  destruct (Z.ltb_spec height (switchLWMAblock params)); [lia|].
  rewrite !mul_exact by lia.
  rewrite !(div_exact (target * _)) by lia.
  rewrite Esum, div_exact by exact Hk64.
  eexists. split; [reflexivity|].
  set (next := target * steadyWeighted T N / k) in *.
  assert (Hfinal : 0 <= limitNextTarget next limit (target * 6 / 5)
                          (target * 2 / 3) < target).
  { assert (target <= target * 6 / 5) by (apply Z.div_le_lower_bound; lia).
    assert (0 <= target * 2 / 3 < target).
    { split; [apply Z.div_pos; lia|apply Z.div_lt_upper_bound; lia]. }
    unfold limitNextTarget. rewrite !Z.gtb_ltb.
    destruct (Z.ltb_spec limit next); [lia|].
    destruct (Z.ltb_spec (target * 6 / 5) next); [lia|].
    destruct (Z.ltb_spec next (target * 2 / 3)); lia. }
  pose proof (GetCompact_decode_le _ ltac:(split; [apply Hfinal|lia])) as Hr.
  lia.
Qed.

Lemma GetNextWorkRequired_on_schedule_tightens_witness :
  lwmaSumTarget punctual_tip lwma_params
  = Some (decode 0x1c00ffff * (540 - 90 - 2 + clampSolveTime 90 1))
  /\ exists c,
       GetNextWorkRequired punctual_tip {| hdr_nTime := 540 |} lwma_params
       = Some c
       /\ decode c < decode 0x1c00ffff.
Proof.
  apply (GetNextWorkRequired_on_schedule_tightens punctual_tip
           {| hdr_nTime := 540 |} lwma_params).
  - exact (wf_tip_of _ _).
  - simpl. repeat split; reflexivity.
  - simpl. repeat split; reflexivity.
  - vm_compute; discriminate.
  - split; vm_compute; discriminate.
  - split; [vm_compute; discriminate | reflexivity].
  - reflexivity.
  - split; [reflexivity | vm_compute; discriminate].
  - vm_compute; reflexivity.
Defined.

(** ** The candidate header *)

(** X10: the candidate header is read under the min-difficulty rule
    only.  Under the bootstrap guard, in the moving-average era, with
    allow-min-difficulty clear, and on the interval boundary, two
    candidate headers give the same result. *)
Theorem GetNextWorkRequired_ignores_candidate
  (pIndexLast : CBlockIndex) (pBlock1 pBlock2 : CBlockHeader) (params : Params) :
  let height := nHeight pIndexLast in
  height + 1 < nLWMAAveragingWindow params
  \/ switchLWMAblock params <= height
  \/ fPowAllowMinDifficultyBlocks params = false
  \/ (exists interval,
        DifficultyAdjustmentInterval params = Some interval
        /\ interval <> 0 /\ Z.rem (height + 1) interval = 0) ->
  GetNextWorkRequired pIndexLast pBlock1 params
  = GetNextWorkRequired pIndexLast pBlock2 params.
Proof.
  intros height H. unfold GetNextWorkRequired. fold height.
  destruct (Z.ltb_spec (height + 1) (nLWMAAveragingWindow params));
    [reflexivity|].
  destruct (Z.ltb_spec height (switchLWMAblock params)); [|reflexivity].
  unfold BitcoinGetNextWorkRequired. fold height.
  destruct H as [H|[H|[H|(interval & Hint & Hi & Hrem)]]]; try lia.
  - rewrite H.
    destruct (DifficultyAdjustmentInterval params) as [interval|];
      [|reflexivity].
    destruct (cpp_rem (height + 1) interval); reflexivity.
  - rewrite Hint. unfold cpp_rem.
    destruct (Z.eqb_spec interval 0); [contradiction|].
    rewrite Hrem. reflexivity.
Qed.

Lemma GetNextWorkRequired_ignores_candidate_witness :
  GetNextWorkRequired slow_tip {| hdr_nTime := 2160 |} lwma_params
  = GetNextWorkRequired slow_tip {| hdr_nTime := 99999 |} lwma_params.
Proof.
  apply (GetNextWorkRequired_ignores_candidate slow_tip
           {| hdr_nTime := 2160 |} {| hdr_nTime := 99999 |} lwma_params).
  right; left. vm_compute; discriminate.
Defined.
